(** * Space flythrough: camera path, shooting stars and the supernova event

    A shallow embedding of the animated core of the flythrough:
    - [CameraPath] from [js/utils/cameraPath.js];
    - the shooting-star pool of [createShootingStars] (starfield component);
    - the supernova controller, the shockwave and the frame function
      [animate] from [js/main.js].

    Conventions.  JavaScript numbers are modelled as exact rationals [Q]
    (no rounding, no NaN); typed arrays are lists indexed with stdpp's
    lookup and insert, whose out-of-range write does nothing, as for a
    [Float32Array].  Everything a frame reads from the outside world (the
    clock, [Date.now], [Math.random]) is passed in as a [FrameInput]; the
    host's own functions ([Math.sin], the three.js curve evaluator, the orbit
    controls) are the fields of the class [Host].  The DOM, the audio element
    and the renderer are not part of the state. *)

From Stdlib Require Import QArith Qminmax Qabs Lqa Lia ZArith List Bool.
From stdpp Require Import list.
Import ListNotations.

Open Scope Q_scope.

(** ** Numbers and vectors *)

Record Vector3 := mkVector3 { vx : Q; vy : Q; vz : Q }.

Definition origin : Vector3 := mkVector3 0 0 0.

(** [new THREE.Vector3().lerpVectors(v1, v2, alpha)]. *)
Definition lerpVectors (v1 v2 : Vector3) (alpha : Q) : Vector3 :=
  mkVector3 (vx v1 + (vx v2 - vx v1) * alpha)
            (vy v1 + (vy v2 - vy v1) * alpha)
            (vz v1 + (vz v2 - vz v1) * alpha).

(** [a.distanceToSquared(b)]. *)
Definition distanceToSquared (a b : Vector3) : Q :=
  (vx a - vx b) * (vx a - vx b) + (vy a - vy b) * (vy a - vy b)
  + (vz a - vz b) * (vz a - vz b).

(** The remainder [t % 1] of JavaScript: [t] minus its truncation, so the
    result keeps the sign of [t]. *)
Definition js_rem1 (t : Q) : Q := Z.rem (Qnum t) (Zpos (Qden t)) # Qden t.

(** [(n % m) / m] for an integer clock reading [n]. *)
Definition cyclePosition (n m : Z) : Q := inject_Z (Z.rem n m) / inject_Z m.

Module MathUtils.

(** [THREE.MathUtils.mapLinear] of the three.js build the page loads
    (0.160.0): the affine map taking [a1, a2] onto [b1, b2]. *)
Definition mapLinear (x a1 a2 b1 b2 : Q) : Q :=
  b1 + (x - a1) * (b2 - b1) / (a2 - a1).

(** [THREE.MathUtils.randFloat(low, high)], with the value [rnd] that
    [Math.random()] returned made explicit. *)
Definition randFloat (low high rnd : Q) : Q := low + rnd * (high - low).

End MathUtils.

(** What a JavaScript call can end with: a normal return or a thrown
    exception. *)
Inductive JsError := TypeError.

Inductive Completion := Normal | Throw (e : JsError).

(** ** The host environment *)

(** The constructor arguments of [THREE.CatmullRomCurve3] other than the
    point array, which the curve shares with its owner. *)
Record CatmullRomCurve3 := mkCurve {
  closed : bool;
  centripetal : bool;
  tension : Q
}.

Record Camera := mkCamera {
  cam_position : Vector3;
  cam_lookAt : Vector3;
  cam_rollZ : Q
}.

Class Host := {
  Math_sin : Q -> Q;
  Math_cos : Q -> Q;
  Math_acos : Q -> Q;
  Math_PI : Q;
  (** [curve.getPointAt(t)] of three.js on a curve over the given points. *)
  curve_getPointAt : CatmullRomCurve3 -> list Vector3 -> Q -> Vector3;
  (** [controls.update()] of the orbit controls. *)
  controls_update : Camera -> Camera
}.

(** ** js/utils/cameraPath.js *)

Module CameraPath.

Record t := mk { points : list Vector3; curve : option CatmullRomCurve3 }.

(** [constructor()]. *)
Definition new : t := mk [] None.

(** [_updateCurve()]: the curve is built over [this.points] itself. *)
Definition _updateCurve (p : t) : t :=
  if (length (points p) <? 2)%nat
  then mk (points p) None
  else mk (points p) (Some (mkCurve true true 0.5)).

(** [addPoint(point)]. *)
Definition addPoint (point : Vector3) (p : t) : t :=
  _updateCurve (mk (points p ++ [point]) (curve p)).

(** The path obtained by adding the given points in order. *)
Definition fromPoints (pts : list Vector3) : t :=
  fold_left (fun p point => addPoint point p) pts new.

Section Query.
Context `{Host}.

(** [getPointAt(t)]. *)
Definition getPointAt (p : t) (t : Q) : Vector3 :=
  match curve p with
  | None => mkVector3 0 0 0
  | Some c =>
      if (length (points p) <? 2)%nat
      then mkVector3 0 0 0
      else curve_getPointAt c (points p) t
  end.

End Query.

End CameraPath.

(** A stand-in for the curve evaluator used to run the model on concrete
    inputs: it walks the chord from the first control point to the second and
    keeps going past its end.  The trigonometric functions are constant. *)
Definition chordHost : Host := {|
  Math_sin := fun _ => 0;
  Math_cos := fun _ => 1;
  Math_acos := fun _ => 0;
  Math_PI := 355 # 113;
  curve_getPointAt := fun _ pts t =>
    match pts with
    | p0 :: p1 :: _ => lerpVectors p0 p1 t
    | _ => origin
    end;
  controls_update := fun c => c
|}.

(** ** The shooting-star pool ([createShootingStars]) *)

(** The two kinds of array object the component handles.  A
    [THREE.BufferAttribute] keeps its typed array in the property [array];
    a bare [Float32Array] has no property of that name. *)
Inductive ArrayObject :=
| Float32Array (data : list Q)
| BufferAttribute (array : list Q).

(** The property read [o.array]; [None] stands for [undefined]. *)
Definition get_array (o : ArrayObject) : option (list Q) :=
  match o with
  | Float32Array _ => None
  | BufferAttribute a => Some a
  end.

Module ShootingStars.

Definition count : nat := 20.
Definition activeMax : nat := 3.

Record ShootingStar := mkStar {
  index : nat;
  startPosition : Vector3;
  endPosition : Vector3;
  progress : Q;
  speed : Q;
  size : Q;
  maxAlpha : Q
}.

(** The closure state of [createShootingStars]: the three typed arrays,
    the list of active stars and the time of the last spawn check. *)
Record t := mk {
  positions : list Q;
  sizes : list Q;
  alphas : list Q;
  activeShootingStars : list ShootingStar;
  lastCheck : Z
}.

(** The values [Math.random()] returns to the eight [randFloat] calls of
    one spawn, in source order. *)
Record SpawnDraws := mkDraws {
  r_phi : Q;
  r_theta : Q;
  r_radius : Q;
  r_endPhi : Q;
  r_endTheta : Q;
  r_speed : Q;
  r_size : Q;
  r_maxAlpha : Q
}.

(** The state right after [createShootingStars]: every slot hidden. *)
Definition init : t :=
  mk (repeat 0 (count * 3)) (repeat 0 count) (repeat 0 count) [] 0%Z.

(** The slot search of [createNewShootingStar], from index [i] with [n]
    iterations left: [for (i; i < count; i++) if (o.array[i] <= 0) ...].
    Reading an element of [undefined] throws; an element that is missing
    compares false.  [None] is the source's [slot = -1]. *)
Fixpoint findSlot (o : ArrayObject) (i n : nat) : option nat + JsError :=
  match n with
  | O => inl None
  | S n' =>
      match get_array o with
      | None => inr TypeError
      | Some a =>
          match a !! i with
          | Some x =>
              if Qle_bool x 0 then inl (Some i) else findSlot o (S i) n'
          | None => findSlot o (S i) n'
          end
      end
  end.

(** [alphas[idx] = newAlpha] as computed by [updateShootingStars] from the
    advanced progress. *)
Definition newAlpha (p A : Q) : Q :=
  if Qlt_le_dec p 0.2 then MathUtils.mapLinear p 0 0.2 0 A
  else if Qlt_le_dec p 0.8 then A
  else if Qlt_le_dec p 1 then MathUtils.mapLinear p 0.8 1 A 0
  else 0.

(** [star.progress += deltaTime * star.speed * 0.1]. *)
Definition advance (deltaTime : Q) (star : ShootingStar) : ShootingStar :=
  mkStar (index star) (startPosition star) (endPosition star)
         (progress star + deltaTime * speed star * 0.1)
         (speed star) (size star) (maxAlpha star).

(** One iteration of the loop of [updateShootingStars], at list index [i]. *)
Definition updateAt (deltaTime : Q) (i : nat) (s : t) : t :=
  match activeShootingStars s !! i with
  | None => s
  | Some star0 =>
      let star := advance deltaTime star0 in
      let pos :=
        lerpVectors (startPosition star) (endPosition star) (progress star) in
      let idx := index star in
      let positions' :=
        <[(idx * 3 + 2)%nat := vz pos]>
          (<[(idx * 3 + 1)%nat := vy pos]>
             (<[(idx * 3)%nat := vx pos]> (positions s))) in
      let alphas1 :=
        <[idx := newAlpha (progress star) (maxAlpha star)]> (alphas s) in
      if Qlt_le_dec (progress star) 1
      then mk positions' (sizes s) alphas1
              (<[i := star]> (activeShootingStars s)) (lastCheck s)
      else mk positions' (sizes s) (<[idx := 0]> alphas1)
              (delete i (activeShootingStars s)) (lastCheck s)
  end.

(** [for (let i = n - 1; i >= 0; i--) ...]. *)
Fixpoint updateLoop (deltaTime : Q) (n : nat) (s : t) : t :=
  match n with
  | O => s
  | S i => updateLoop deltaTime i (updateAt deltaTime i s)
  end.

(** [updateShootingStars(deltaTime)]. *)
Definition updateShootingStars (deltaTime : Q) (s : t) : t :=
  updateLoop deltaTime (length (activeShootingStars s)) s.

Section Spawn.
Context `{Host}.

(** The part of [createNewShootingStar] after a free slot was found. *)
Definition activate (d : SpawnDraws) (slot : nat) (s : t) : t :=
  let phi := MathUtils.randFloat 0 (Math_PI * 0.4) (r_phi d) in
  let theta := MathUtils.randFloat 0 (Math_PI * 2) (r_theta d) in
  let radius := MathUtils.randFloat 300 600 (r_radius d) in
  let startX := radius * Math_sin phi * Math_cos theta in
  let startY := radius * Math_cos phi in
  let startZ := radius * Math_sin phi * Math_sin theta in
  let endPhi := phi + MathUtils.randFloat 0.3 0.6 (r_endPhi d) in
  let endTheta := theta + MathUtils.randFloat (-0.1) 0.1 (r_endTheta d) in
  let endX := radius * Math_sin endPhi * Math_cos endTheta in
  let endY := radius * Math_cos endPhi in
  let endZ := radius * Math_sin endPhi * Math_sin endTheta in
  let speed := MathUtils.randFloat 0.5 2.0 (r_speed d) in
  let shootingStar :=
    mkStar slot (mkVector3 startX startY startZ)
           (mkVector3 endX endY endZ) 0 speed
           (MathUtils.randFloat 6 10 (r_size d))
           (MathUtils.randFloat 0.7 1.0 (r_maxAlpha d)) in
  mk (<[(slot * 3 + 2)%nat := startZ]>
        (<[(slot * 3 + 1)%nat := startY]>
           (<[(slot * 3)%nat := startX]> (positions s))))
     (<[slot := size shootingStar]> (sizes s))
     (<[slot := 0.1]> (alphas s))
     (activeShootingStars s ++ [shootingStar])
     (lastCheck s).

(** [createNewShootingStar] with the array object its slot search reads
    made a parameter. *)
Definition createNewShootingStarOn (o : ArrayObject) (d : SpawnDraws)
    (s : t) : t * Completion :=
  if (activeMax <=? length (activeShootingStars s))%nat then (s, Normal)
  else
    match findSlot o 0 count with
    | inr e => (s, Throw e)
    | inl None => (s, Normal)
    | inl (Some slot) => (activate d slot s, Normal)
    end.

(** [createNewShootingStar()].  The closure variable [alphas] is the
    [Float32Array] itself, and the search reads [alphas.array[i]]. *)
Definition createNewShootingStar (d : SpawnDraws) (s : t)
    : t * Completion :=
  createNewShootingStarOn (Float32Array (alphas s)) d s.

(** [shootingStars.userData.update(deltaTime)]: [now] is [Date.now()],
    [roll] the value of [Math.random()] at the 40% test. *)
Definition update (deltaTime : Q) (now : Z) (roll : Q) (d : SpawnDraws)
    (s : t) : t * Completion :=
  let s1 := updateShootingStars deltaTime s in
  if (3000 <? now - lastCheck s1)%Z then
    let s2 := mk (positions s1) (sizes s1) (alphas s1)
                 (activeShootingStars s1) now in
    if Qlt_le_dec roll 0.4 then createNewShootingStar d s2
    else (s2, Normal)
  else (s1, Normal).

End Spawn.

End ShootingStars.

(** ** js/main.js: scene objects, the shockwave and the supernova *)

(** Objects of the scene graph, by identity.  The supernova mesh, its light
    and the shockwave created by the [n]-th trigger carry the serial [n];
    everything [init] put into the scene is a [StaticObject]. *)
Inductive SceneObject :=
| SupernovaMesh (serial : nat)
| SupernovaLight (serial : nat)
| ShockwaveParticles (serial : nat)
| StaticObject (n : nat).

Definition SceneObject_eqb (a b : SceneObject) : bool :=
  match a, b with
  | SupernovaMesh m, SupernovaMesh n => Nat.eqb m n
  | SupernovaLight m, SupernovaLight n => Nat.eqb m n
  | ShockwaveParticles m, ShockwaveParticles n => Nat.eqb m n
  | StaticObject m, StaticObject n => Nat.eqb m n
  | _, _ => false
  end.

(** [scene.remove(o)]. *)
Definition scene_remove (o : SceneObject) (scene : list SceneObject)
    : list SceneObject :=
  List.filter (fun x => negb (SceneObject_eqb o x)) scene.

(** [scene.add(o)]. *)
Definition scene_add (o : SceneObject) (scene : list SceneObject)
    : list SceneObject :=
  scene ++ [o].

(** The values [Math.random()] returns while one shockwave particle is
    initialised, in source order. *)
Record ParticleDraw := mkParticleDraw {
  u_phi : Q;
  u_theta : Q;
  u_speed : Q;
  u_green : Q;
  u_blue : Q;
  u_size : Q
}.

(** The [THREE.Points] object of [createShockwave] with its [userData]. *)
Record Shockwave := mkShockwave {
  sw_serial : nat;
  sw_positions : list Q;
  sw_colors : list Q;
  sw_sizes : list Q;
  sw_velocity : list Q;
  sw_startTime : Q;
  sw_duration : Q;
  sw_time : Q
}.

(** [scene.userData.dramaticEvent] together with the two objects it refers
    to: the uniform scale and the shader time of the mesh, and the intensity
    of the light. *)
Record DramaticEvent := mkEvent {
  ev_serial : nat;
  supernova_scale : Q;
  supernova_time : Q;
  supernovaLight_intensity : Q;
  startTime : Q;
  duration : Q
}.

Record Location := mkLocation {
  triggerDistance : Q;
  loc_position : Vector3
}.

Definition cosmicLocations : list Location :=
  [ mkLocation 50 (mkVector3 10 10 40);
    mkLocation 60 (mkVector3 (-70) 20 (-60));
    mkLocation 40 (mkVector3 30 0 0);
    mkLocation 70 (mkVector3 (-100) (-30) 80);
    mkLocation 50 (mkVector3 90 40 (-90)) ].

(** The module-level variables of main.js and the parts of the scene they
    reach. *)
Record State := mkState {
  isAutoPilot : bool;
  journeyStarted : bool;
  controlsEnabled : bool;
  currentLocationIndex : Z;
  lastLocationChangeTime : Z;
  dramaticEventTriggered : bool;
  dramaticEventProgress : Q;
  dramaticEvent : option DramaticEvent;
  updateableObjects : option (list Shockwave);
  sceneChildren : list SceneObject;
  shootingStars : ShootingStars.t;
  camera : Camera;
  cameraPath : CameraPath.t;
  eventSerial : nat
}.

(** What one call of [animate] reads from outside the program. *)
Record FrameInput := mkFrameInput {
  delta : Q;                        (* clock.getDelta() *)
  elapsedTime : Q;                  (* clock.getElapsedTime() *)
  starsNow : Z;                     (* Date.now() in the star update *)
  spawnRoll : Q;                    (* Math.random() of the 40% test *)
  spawnDraws : ShootingStars.SpawnDraws;
  cameraNow : Z;                    (* Date.now() for the path position *)
  locationNow : Z;                  (* Date.now() in checkLocationInfo *)
  triggerRoll : Q;                  (* Math.random() of the 0.001 test *)
  triggerClock : Q;                 (* clock.getElapsedTime() at the trigger *)
  shockwaveClock : Q;               (* clock.getElapsedTime() in createShockwave *)
  shockwaveDraws : nat -> ParticleDraw
}.

Definition set_shootingStars (x : ShootingStars.t) (s : State) : State :=
  mkState (isAutoPilot s) (journeyStarted s) (controlsEnabled s)
    (currentLocationIndex s) (lastLocationChangeTime s)
    (dramaticEventTriggered s) (dramaticEventProgress s) (dramaticEvent s)
    (updateableObjects s) (sceneChildren s) x (camera s) (cameraPath s)
    (eventSerial s).

Definition set_camera (x : Camera) (s : State) : State :=
  mkState (isAutoPilot s) (journeyStarted s) (controlsEnabled s)
    (currentLocationIndex s) (lastLocationChangeTime s)
    (dramaticEventTriggered s) (dramaticEventProgress s) (dramaticEvent s)
    (updateableObjects s) (sceneChildren s) (shootingStars s) x
    (cameraPath s) (eventSerial s).

Definition set_location (i t : Z) (s : State) : State :=
  mkState (isAutoPilot s) (journeyStarted s) (controlsEnabled s) i t
    (dramaticEventTriggered s) (dramaticEventProgress s) (dramaticEvent s)
    (updateableObjects s) (sceneChildren s) (shootingStars s) (camera s)
    (cameraPath s) (eventSerial s).

Definition set_mode (auto : bool) (s : State) : State :=
  mkState auto (journeyStarted s) (negb auto)
    (currentLocationIndex s) (lastLocationChangeTime s)
    (dramaticEventTriggered s) (dramaticEventProgress s) (dramaticEvent s)
    (updateableObjects s) (sceneChildren s) (shootingStars s) (camera s)
    (cameraPath s) (eventSerial s).

Definition set_journeyStarted (b : bool) (s : State) : State :=
  mkState (isAutoPilot s) b (controlsEnabled s)
    (currentLocationIndex s) (lastLocationChangeTime s)
    (dramaticEventTriggered s) (dramaticEventProgress s) (dramaticEvent s)
    (updateableObjects s) (sceneChildren s) (shootingStars s) (camera s)
    (cameraPath s) (eventSerial s).

Definition set_objects (objs : option (list Shockwave))
    (scene : list SceneObject) (s : State) : State :=
  mkState (isAutoPilot s) (journeyStarted s) (controlsEnabled s)
    (currentLocationIndex s) (lastLocationChangeTime s)
    (dramaticEventTriggered s) (dramaticEventProgress s) (dramaticEvent s)
    objs scene (shootingStars s) (camera s) (cameraPath s) (eventSerial s).

Definition set_event (flag : bool) (prog : Q) (ev : option DramaticEvent)
    (scene : list SceneObject) (serial : nat) (s : State) : State :=
  mkState (isAutoPilot s) (journeyStarted s) (controlsEnabled s)
    (currentLocationIndex s) (lastLocationChangeTime s)
    flag prog ev (updateableObjects s) scene (shootingStars s) (camera s)
    (cameraPath s) serial.

Definition particleCount : nat := 2000.

(** [supernova.position]. *)
Definition supernovaPosition : Vector3 := mkVector3 (-150) 40 (-120).

(** The initial state of main.js once [init] has run, for a given scene,
    camera and camera path. *)
Definition initialState (scene : list SceneObject) (cam : Camera)
    (path : CameraPath.t) : State :=
  mkState true false false (-1)%Z 0%Z false 0 None None scene
    ShootingStars.init cam path 0.

(** [update(elapsedTime)] of a shockwave's [userData], apart from the scene
    removal: the loop adds to each of the three coordinates of each particle
    its velocity scaled by [1 - progress * 0.5]. *)
Definition shockwave_update (elapsed : Q) (w : Shockwave) : Shockwave :=
  let runtime := elapsed - sw_startTime w in
  let progress := Qmin (runtime / sw_duration w) 1 in
  if Qlt_le_dec progress 1 then
    mkShockwave (sw_serial w)
      (zip_with (fun p v => p + v * (1 - progress * 0.5))
                (sw_positions w) (sw_velocity w))
      (sw_colors w) (sw_sizes w) (sw_velocity w)
      (sw_startTime w) (sw_duration w) runtime
  else
    mkShockwave (sw_serial w) (sw_positions w) (sw_colors w) (sw_sizes w)
      (sw_velocity w) (sw_startTime w) (sw_duration w) runtime.

(** Whether that [update] takes its [scene.remove(particles)] branch. *)
Definition shockwave_done (elapsed : Q) (w : Shockwave) : bool :=
  if Qlt_le_dec (Qmin ((elapsed - sw_startTime w) / sw_duration w) 1) 1
  then false else true.

(** The loop of [animate] over [scene.userData.updateableObjects]. *)
Definition updateObjects (elapsed : Q) (s : State) : State :=
  match updateableObjects s with
  | None => s
  | Some objs =>
      set_objects (Some (map (shockwave_update elapsed) objs))
        (fold_right
           (fun w scene =>
              if shockwave_done elapsed w
              then scene_remove (ShockwaveParticles (sw_serial w)) scene
              else scene)
           (sceneChildren s) objs)
        s
  end.

(** The block of [animate] under "Update dramatic event if in progress". *)
Definition updateDramaticEvent `{Host} (elapsed : Q) (s : State) : State :=
  match dramaticEventTriggered s, dramaticEvent s with
  | true, Some event =>
      let eventElapsed := elapsed - startTime event in
      let progress := Qmin (eventElapsed / duration event) 1 in
      let event' :=
        if Qlt_le_dec progress 0.3 then
          mkEvent (ev_serial event) (1 + progress * 100) elapsed
                  (progress * 10) (startTime event) (duration event)
        else if Qlt_le_dec progress 0.7 then
          mkEvent (ev_serial event) (supernova_scale event) elapsed
                  (3 + Math_sin (elapsed * 3) * 1.5)
                  (startTime event) (duration event)
        else
          let fadeOut := 1 - ((progress - 0.7) / 0.3) in
          mkEvent (ev_serial event) (30 * fadeOut) elapsed (fadeOut * 3)
                  (startTime event) (duration event) in
      if Qlt_le_dec progress 1 then
        set_event true (dramaticEventProgress s) (Some event')
          (sceneChildren s) (eventSerial s) s
      else
        set_event false (dramaticEventProgress s) None
          (scene_remove (SupernovaLight (ev_serial event))
             (scene_remove (SupernovaMesh (ev_serial event))
                (sceneChildren s)))
          (eventSerial s) s
  | _, _ => s
  end.

Section Frame.
Context `{Host}.

(** The initial arrays of [createShockwave]: position, velocity, colour
    (three entries per particle) and size (one entry). *)
Definition particlePosition (center : Vector3) (d : ParticleDraw) : list Q :=
  let phi := Math_acos (u_phi d * 2 - 1) in
  let theta := u_theta d * Math_PI * 2 in
  let radius := 5 in
  [ vx center + radius * Math_sin phi * Math_cos theta;
    vy center + radius * Math_sin phi * Math_sin theta;
    vz center + radius * Math_cos phi ].

Definition particleVelocity (d : ParticleDraw) : list Q :=
  let phi := Math_acos (u_phi d * 2 - 1) in
  let theta := u_theta d * Math_PI * 2 in
  let speed := 2 + u_speed d * 5 in
  [ Math_sin phi * Math_cos theta * speed;
    Math_sin phi * Math_sin theta * speed;
    Math_cos phi * speed ].

Definition particleColor (d : ParticleDraw) : list Q :=
  [ 1; 0.4 + u_green d * 0.4; u_blue d * 0.4 ].

(** [createShockwave(scene, center, duration)]. *)
Definition createShockwave (center : Vector3) (dur : Q) (now : Q)
    (draws : nat -> ParticleDraw) (serial : nat) (s : State) : State :=
  let ids := seq 0 particleCount in
  let particles :=
    mkShockwave serial
      (flat_map (fun i => particlePosition center (draws i)) ids)
      (flat_map (fun i => particleColor (draws i)) ids)
      (map (fun i => 2 + u_size (draws i) * 5) ids)
      (flat_map (fun i => particleVelocity (draws i)) ids)
      now dur 0 in
  set_objects
    (Some (match updateableObjects s with
           | None => []
           | Some objs => objs
           end ++ [particles]))
    (scene_add (ShockwaveParticles serial) (sceneChildren s))
    s.

(** [triggerDramaticEvent()]. *)
Definition triggerDramaticEvent (fi : FrameInput) (s : State) : State :=
  if dramaticEventTriggered s then s
  else
    let serial := eventSerial s in
    let s1 :=
      set_event true 0
        (Some (mkEvent serial 1 0 1 (triggerClock fi) 25))
        (scene_add (SupernovaLight serial)
           (scene_add (SupernovaMesh serial) (sceneChildren s)))
        (S serial) s in
    createShockwave supernovaPosition 25 (shockwaveClock fi)
      (shockwaveDraws fi) serial s1.

(** The loop of [checkLocationInfo] from list index [i] on.  The source
    compares the distance with [triggerDistance]; both are non-negative, so
    the comparison of their squares decides the same test. *)
Fixpoint findLocation (pos : Vector3) (current : Z) (i : Z)
    (locs : list Location) : option Z :=
  match locs with
  | [] => None
  | location :: rest =>
      if Qlt_le_dec (distanceToSquared pos (loc_position location))
                    (triggerDistance location * triggerDistance location)
      then if (i =? current)%Z
           then findLocation pos current (i + 1)%Z rest
           else Some i
      else findLocation pos current (i + 1)%Z rest
  end.

(** [checkLocationInfo()]. *)
Definition checkLocationInfo (fi : FrameInput) (s : State) : State :=
  if negb (journeyStarted s) then s
  else
    let currentTime := locationNow fi in
    if (currentTime - lastLocationChangeTime s <? 10000)%Z then s
    else
      match findLocation (cam_position (camera s)) (currentLocationIndex s)
                         0%Z cosmicLocations with
      | Some i => set_location i currentTime s
      | None => s
      end.

(** The branch of [animate] taken when [journeyStarted && isAutoPilot]. *)
Definition autoPilotStep (fi : FrameInput) (s : State) : State :=
  let pathPosition := cyclePosition (cameraNow fi) 300000 in
  let position := CameraPath.getPointAt (cameraPath s) pathPosition in
  let lookAheadAmount := 0.01 + Math_sin (elapsedTime fi * 0.2) * 0.005 in
  let lookAtPosition :=
    CameraPath.getPointAt (cameraPath s)
      (js_rem1 (pathPosition + lookAheadAmount)) in
  let s1 :=
    set_camera
      (mkCamera position lookAtPosition
                (Math_sin (elapsedTime fi * 0.05) * 0.001)) s in
  let s2 := checkLocationInfo fi s1 in
  if negb (dramaticEventTriggered s2) then
    if Qlt_le_dec 60 (elapsedTime fi) then
      if Qlt_le_dec (triggerRoll fi) 0.001
      then triggerDramaticEvent fi s2
      else s2
    else s2
  else s2.

(** The last part of [animate] before rendering: who moves the camera. *)
Definition cameraStep (fi : FrameInput) (s : State) : State :=
  if journeyStarted s && isAutoPilot s then autoPilotStep fi s
  else if negb (isAutoPilot s) then set_camera (controls_update (camera s)) s
  else s.

(** The state in which [animate] reaches its camera branch, when the star
    update returned normally. *)
Definition beforeCamera (fi : FrameInput) (s : State) : State :=
  updateDramaticEvent (elapsedTime fi) (updateObjects (elapsedTime fi) s).

(** [animate()]: one frame.  An exception of the star update leaves the
    function at once, with whatever was written up to then. *)
Definition animate (fi : FrameInput) (s : State) : State * Completion :=
  let (stars, c) :=
    ShootingStars.update (delta fi) (starsNow fi) (spawnRoll fi)
      (spawnDraws fi) (shootingStars s) in
  let s1 := set_shootingStars stars s in
  match c with
  | Throw e => (s1, Throw e)
  | Normal => (cameraStep fi (beforeCamera fi s1), Normal)
  end.

(** [toggleControlMode()]. *)
Definition toggleControlMode (s : State) : State :=
  if negb (journeyStarted s) then s
  else set_mode (negb (isAutoPilot s)) s.

(** The keydown handler for the space bar (first revision of main.js). *)
Definition onSpaceKey (s : State) : State :=
  set_mode (negb (isAutoPilot s)) s.

(** [startJourney()]. *)
Definition startJourney (s : State) : State :=
  if journeyStarted s then s else set_journeyStarted true s.

End Frame.

(** ** Notions the statements use *)

(** A star is kept in the active list as long as its progress is below 1. *)
Definition alive (star : ShootingStars.ShootingStar) : bool :=
  if Qlt_le_dec (ShootingStars.progress star) 1 then true else false.

(** The write [alphas[idx] = ...] one loop iteration leaves behind for a star
    whose progress has been advanced. *)
Definition writeAlpha (star : ShootingStars.ShootingStar) (a : list Q)
    : list Q :=
  <[ShootingStars.index star :=
      ShootingStars.newAlpha (ShootingStars.progress star)
                             (ShootingStars.maxAlpha star)]> a.

(** The pool states a session can be in: the initial one and whatever a call
    of [update] leaves, returned or thrown. *)
Inductive reachable `{Host} : ShootingStars.t -> Prop :=
| reachable_init : reachable ShootingStars.init
| reachable_update (deltaTime : Q) (now : Z) (roll : Q)
    (d : ShootingStars.SpawnDraws) (s : ShootingStars.t) :
    reachable s ->
    reachable (fst (ShootingStars.update deltaTime now roll d s)).

(** ** Further notions of the frame loop *)

(** [pathPosition] of [animate]: [(Date.now() % 300000) / 300000]. *)
Definition pathPosition (fi : FrameInput) : Q :=
  cyclePosition (cameraNow fi) 300000.

(** [lookAheadAmount] of [animate]. *)
Definition lookAheadAmount `{Host} (fi : FrameInput) : Q :=
  0.01 + Math_sin (elapsedTime fi * 0.2) * 0.005.

(** ** Concrete inputs used by the examples *)

Definition twoPoints : list Vector3 := [mkVector3 0 0 0; mkVector3 1 0 0].

Definition someDraws : ShootingStars.SpawnDraws :=
  ShootingStars.mkDraws (1 # 2) (1 # 2) (1 # 2) (1 # 2) (1 # 2) (1 # 2)
                        (1 # 2) (1 # 2).

(** A star in slot [slot] at the given progress, speed 1 and maximum
    alpha 4/5. *)
Definition starAt (slot : nat) (p : Q) : ShootingStars.ShootingStar :=
  ShootingStars.mkStar slot (mkVector3 0 100 0) (mkVector3 50 0 0) p 1 8
                       (4 # 5).

(** A pool holding the given stars in otherwise fresh arrays. *)
Definition poolWith (stars : list ShootingStars.ShootingStar)
    : ShootingStars.t :=
  ShootingStars.mk (ShootingStars.positions ShootingStars.init)
    (ShootingStars.sizes ShootingStars.init)
    (ShootingStars.alphas ShootingStars.init) stars 0%Z.

(** The eleven control points of [setupCameraPath]. *)
Definition journeyPoints : list Vector3 :=
  [ mkVector3 0 20 100; mkVector3 30 40 80; mkVector3 60 10 40;
    mkVector3 70 (-10) 0; mkVector3 40 (-30) (-30);
    mkVector3 (-20) (-20) (-60); mkVector3 (-60) 0 (-80);
    mkVector3 (-100) 30 (-50); mkVector3 (-80) 50 10;
    mkVector3 (-30) 40 60; mkVector3 20 20 80 ].

(** The session as [init] leaves it: camera at z = 50, the journey path
    set up, the journey not yet started. *)
Definition session0 : State :=
  initialState [] (mkCamera (mkVector3 0 0 50) origin 0)
               (CameraPath.fromPoints journeyPoints).

Definition evenDraws : nat -> ParticleDraw :=
  fun _ => mkParticleDraw (1 # 2) (1 # 2) (1 # 2) (1 # 2) (1 # 2) (1 # 2).

(** A frame at clock reading [elapsed] seconds and wall-clock [now]
    milliseconds, with the two rolls of [Math.random()] given. *)
Definition frameAt (elapsed : Q) (now : Z) (spawn trigger : Q) : FrameInput :=
  mkFrameInput (1 # 60) elapsed now spawn someDraws now now trigger elapsed
               elapsed evenDraws.

(** Three frames of one session: the trial succeeds at 61 s; at 87 s the
    event has run its 25 s; at 88 s the trial succeeds again. *)
Definition frame61 : FrameInput := frameAt 61 1700000000000 (1 # 2) 0.
Definition frame87 : FrameInput := frameAt 87 1700000026000 (1 # 2) (1 # 2).
Definition frame88 : FrameInput := frameAt 88 1700000027000 (1 # 2) 0.

(** A frame at 62 s, four seconds of wall clock after [frame61], in which
    the 40% test of the star spawner succeeds. *)
Definition frame62spawn : FrameInput :=
  frameAt 62 1700000004000 (1 # 10) (1 # 2).

(** The same frame with the 40% test failing. *)
Definition frame62 : FrameInput := frameAt 62 1700000004000 (1 # 2) (1 # 2).

(** The three writes [positions[idx * 3 + k] = ...] one loop iteration of
    [updateShootingStars] leaves behind for a star whose progress has been
    advanced. *)
Definition writePosition (star : ShootingStars.ShootingStar) (p : list Q)
    : list Q :=
  let pos :=
    lerpVectors (ShootingStars.startPosition star)
                (ShootingStars.endPosition star)
                (ShootingStars.progress star) in
  <[(ShootingStars.index star * 3 + 2)%nat := vz pos]>
    (<[(ShootingStars.index star * 3 + 1)%nat := vy pos]>
       (<[(ShootingStars.index star * 3)%nat := vx pos]> p)).

(** ** The starfield ([createStarfield]) *)

Module Starfield.

(** What [starfield.userData] keeps for the star of one index: the entries
    of [randomOffsets], [randomSpeeds] and [sizes] (the original sizes), three
    arrays created together with one entry per star. *)
Record Twinkle := mkTwinkle {
  randomOffset : Q;
  randomSpeed : Q;
  originalSize : Q
}.

(** The values [Math.random()] returns for the colour and the size of one
    star, in source order: the star type, the three colour channels, the
    size. *)
Record StarDraws := mkStarDraws {
  d_starType : Q;
  d_red : Q;
  d_green : Q;
  d_blue : Q;
  d_size : Q
}.

(** The three colour entries of a star. *)
Definition starColor (d : StarDraws) : list Q :=
  if Qlt_le_dec 0.9 (d_starType d) then
    [ MathUtils.randFloat 0.8 1.0 (d_red d);
      MathUtils.randFloat 0.5 0.8 (d_green d);
      MathUtils.randFloat 0.0 0.3 (d_blue d) ]
  else if Qlt_le_dec 0.5 (d_starType d) then
    [ MathUtils.randFloat 0.8 1.0 (d_red d);
      MathUtils.randFloat 0.8 1.0 (d_green d);
      MathUtils.randFloat 0.8 1.0 (d_blue d) ]
  else
    [ MathUtils.randFloat 0.6 0.8 (d_red d);
      MathUtils.randFloat 0.7 0.9 (d_green d);
      MathUtils.randFloat 0.9 1.0 (d_blue d) ].

(** [sizes[i]]. *)
Definition starSize (d : StarDraws) : Q := MathUtils.randFloat 1 5 (d_size d).

Section WithHost.
Context `{Host}.

(** [twinkle] of [onBeforeRender]: the factor applied to the original
    size. *)
Definition twinkle (time : Q) (u : Twinkle) : Q :=
  0.3 + 0.7 * Qabs (Math_sin (time * randomSpeed u + randomOffset u)).

(** The loop of [onBeforeRender] from index [i] on:
    [sizesArray[i] = originalSizes[i] * twinkle]. *)
Fixpoint twinkleFrom (time : Q) (i : nat) (data : list Twinkle)
    (sizesArray : list Q) : list Q :=
  match data with
  | [] => sizesArray
  | u :: rest =>
      twinkleFrom time (S i) rest
        (<[i := originalSize u * twinkle time u]> sizesArray)
  end.

(** [starfield.onBeforeRender]: [time] is [performance.now() * 0.001]. *)
Definition onBeforeRender (time : Q) (data : list Twinkle)
    (sizesArray : list Q) : list Q :=
  twinkleFrom time 0 data sizesArray.

End WithHost.

End Starfield.

(** ** Sessions *)

(** The supernova meshes and lights among the children of the scene. *)
Definition isEventObject (o : SceneObject) : bool :=
  match o with
  | SupernovaMesh _ | SupernovaLight _ => true
  | _ => false
  end.

Definition eventObjects (scene : list SceneObject) : list SceneObject :=
  List.filter isEventObject scene.

(** What [init] puts into the scene. *)
Definition isStatic (o : SceneObject) : bool :=
  match o with
  | StaticObject _ => true
  | _ => false
  end.

(** [scene.userData.updateableObjects], read as the source's loops do. *)
Definition shockwaves (s : State) : list Shockwave :=
  match updateableObjects s with
  | None => []
  | Some objs => objs
  end.

(** The states a session started in [s0] can reach: by a frame, returned or
    thrown, by a click or tap on the canvas or the mode button, by the space
    bar, by the start of the journey. *)
Inductive sessionReachable `{Host} (s0 : State) : State -> Prop :=
| session_start : sessionReachable s0 s0
| session_frame (fi : FrameInput) (s : State) :
    sessionReachable s0 s -> sessionReachable s0 (fst (animate fi s))
| session_toggle (s : State) :
    sessionReachable s0 s -> sessionReachable s0 (toggleControlMode s)
| session_space (s : State) :
    sessionReachable s0 s -> sessionReachable s0 (onSpaceKey s)
| session_journey (s : State) :
    sessionReachable s0 s -> sessionReachable s0 (startJourney s).

(** What every reachable state satisfies (proved below). *)
Definition SessionInv (s : State) : Prop :=
  (dramaticEventTriggered s = true <-> dramaticEvent s <> None)
  /\ (forall ev, dramaticEvent s = Some ev -> duration ev = 25)
  /\ eventObjects (sceneChildren s)
     = match dramaticEvent s with
       | Some ev => [SupernovaMesh (ev_serial ev);
                     SupernovaLight (ev_serial ev)]
       | None => []
       end
  /\ controlsEnabled s = negb (isAutoPilot s)
  /\ map sw_serial (shockwaves s) = seq 0 (eventSerial s)
  /\ Forall (fun w => sw_duration w = 25) (shockwaves s)
  /\ ShootingStars.activeShootingStars (shootingStars s) = [].

(** The camera position [pos] is within the trigger distance of a location:
    the test of [checkLocationInfo], on squares. *)
Definition withinTrigger (pos : Vector3) (location : Location) : Prop :=
  distanceToSquared pos (loc_position location)
  < triggerDistance location * triggerDistance location.

(** ** Planets ([createPlanet]) *)

Module Planet.

(** One entry of the option [moons]; a missing property is [None]. *)
Record MoonConfig := mkMoonConfig {
  cfg_radius : option Q;
  cfg_distance : option Q;
  cfg_rotationSpeed : option Q
}.

(** [x || d] on a number that may be missing: [undefined] and 0 are
    falsy. *)
Definition orElse (x : option Q) (d : Q) : Q :=
  match x with
  | Some v => if Qeq_bool v 0 then d else v
  | None => d
  end.

(** A moon's orbit group: the radius of its mesh and the x position of the
    mesh in the group, the rotation of the group, and its [userData]. *)
Record MoonOrbit := mkMoonOrbit {
  moonRadius : Q;
  moonDistance : Q;
  orbit_rotation_x : Q;
  orbit_rotation_y : Q;
  ud_rotationSpeed : Q;
  ud_angle : Q
}.

(** The children of the planet group other than the planet mesh, which is
    added last.  Rings and atmosphere keep the empty [userData] of a new
    mesh. *)
Inductive Child :=
| Rings (rotation_x rotation_y : Q)
| Atmosphere
| Moon (orbit : MoonOrbit).

Record PlanetGroup := mkPlanetGroup {
  planet_rotation_x : Q;
  planet_rotation_y : Q;
  planet_rotationSpeed : Q;
  children : list Child
}.

(** The two values [Math.random()] returns for one moon, in source order:
    the starting angle and the tilt of the orbit. *)
Record MoonDraws := mkMoonDraws { m_angle : Q; m_tilt : Q }.

Section WithHost.
Context `{Host}.

(** The body of [moons.forEach]. *)
Definition createMoon (radius rotationSpeed : Q) (moon : MoonConfig)
    (d : MoonDraws) : MoonOrbit :=
  let moonRadius := orElse (cfg_radius moon) (radius * 0.27) in
  let moonDistance := orElse (cfg_distance moon) (radius * 3) in
  let moonRotationSpeed :=
    orElse (cfg_rotationSpeed moon) (rotationSpeed * 2) in
  let moonAngle := m_angle d * Math_PI * 2 in
  mkMoonOrbit moonRadius moonDistance (m_tilt d * 0.5) moonAngle
              moonRotationSpeed moonAngle.

(** [createPlanet(scene, options)], with the options after their defaults
    were applied and the draws of each moon beside its configuration. *)
Definition createPlanet (radius rotationSpeed tilt : Q)
    (hasRings hasAtmosphere : bool) (moons : list (MoonConfig * MoonDraws))
    : PlanetGroup :=
  mkPlanetGroup tilt 0 rotationSpeed
    ((if hasRings then [Rings (Math_PI / 2) tilt] else [])
     ++ (if hasAtmosphere then [Atmosphere] else [])
     ++ map (fun m => Moon (createMoon radius rotationSpeed (fst m) (snd m)))
            moons).

End WithHost.

(** The callback of [planetGroup.children.forEach] in
    [planet.onBeforeRender]. *)
Definition renderChild (child : Child) : Child :=
  match child with
  | Moon m =>
      if Qeq_bool (ud_rotationSpeed m) 0 then child
      else
        let angle := ud_angle m + ud_rotationSpeed m in
        Moon (mkMoonOrbit (moonRadius m) (moonDistance m)
                          (orbit_rotation_x m) angle
                          (ud_rotationSpeed m) angle)
  | _ => child
  end.

(** [planet.onBeforeRender]. *)
Definition onBeforeRender (g : PlanetGroup) : PlanetGroup :=
  mkPlanetGroup (planet_rotation_x g)
    (planet_rotation_y g + planet_rotationSpeed g)
    (planet_rotationSpeed g)
    (map renderChild (children g)).

End Planet.

(** * Properties *)

(** ** The camera path *)

Module CameraPathFacts.
Import CameraPath.

Lemma points_fold_addPoint (pts : list Vector3) (p : t) :
  points (fold_left (fun p point => addPoint point p) pts p) = points p ++ pts.
Proof.
  revert p; induction pts as [|x pts IH]; intros p; simpl.
  - now rewrite app_nil_r.
  - rewrite IH. unfold addPoint, _updateCurve; simpl.
    destruct (length (points p ++ [x]) <? 2)%nat; simpl;
      now rewrite <- app_assoc.
Qed.

Lemma points_fromPoints (pts : list Vector3) : points (fromPoints pts) = pts.
Proof. unfold fromPoints. now rewrite points_fold_addPoint. Qed.

Lemma curve_updateCurve (p : t) :
  curve (_updateCurve p) =
  if (length (points p) <? 2)%nat then None else Some (mkCurve true true 0.5).
Proof. unfold _updateCurve. now destruct (length (points p) <? 2)%nat. Qed.

Lemma curve_fromPoints (pts : list Vector3) :
  (2 <= length pts)%nat -> curve (fromPoints pts) = Some (mkCurve true true 0.5).
Proof.
  intros Hlen. destruct (exists_last (l := pts)) as [front [x ->]].
  { intros ->; simpl in Hlen; lia. }
  unfold fromPoints. rewrite fold_left_app; simpl.
  unfold addPoint. rewrite curve_updateCurve; simpl.
  rewrite points_fold_addPoint; simpl.
  destruct (Nat.ltb_spec (length (front ++ [x])) 2) as [Hlt|]; [lia|reflexivity].
Qed.

(** C8.  A path to which fewer than two control points were added answers
    every query with the origin (0, 0, 0); so does any path object holding
    fewer than two points.  The answer is produced without consulting the
    curve evaluator, whatever the host: the query cannot fail. *)
Theorem getPointAt_fewer_than_two_points `{Host} (pts : list Vector3) (t : Q) :
  (length pts < 2)%nat ->
  getPointAt (fromPoints pts) t = mkVector3 0 0 0
  /\ forall p : CameraPath.t, points p = pts -> getPointAt p t = mkVector3 0 0 0.
Proof.
  intros Hlen.
  assert (G : forall p : CameraPath.t, points p = pts ->
                getPointAt p t = mkVector3 0 0 0).
  { intros p Hp. unfold getPointAt. destruct (curve p); [|reflexivity].
    rewrite Hp. destruct (Nat.ltb_spec (length pts) 2); [reflexivity|lia]. }
  split; [apply G, points_fromPoints | exact G].
Qed.

Lemma getPointAt_fewer_than_two_points_witness :
  (length [mkVector3 7 8 9] < 2)%nat
  /\ getPointAt (H := chordHost) (fromPoints [mkVector3 7 8 9]) (3 # 4)
     = mkVector3 0 0 0.
Proof.
  assert (Hlen : (length [mkVector3 7 8 9] < 2)%nat) by (simpl; lia).
  split; [exact Hlen|].
  exact (proj1 (getPointAt_fewer_than_two_points (H := chordHost)
                  [mkVector3 7 8 9] (3 # 4) Hlen)).
Defined.

Lemma js_rem1_unit (t : Q) : 0 <= t -> t < 1 -> js_rem1 t = t.
Proof.
  destruct t as [n d]; unfold Qle, Qlt, js_rem1; simpl; intros H0 H1.
  rewrite Z.rem_small by lia. reflexivity.
Qed.

Lemma js_rem1_range (t : Q) : 0 <= t -> 0 <= js_rem1 t /\ js_rem1 t < 1.
Proof.
  destruct t as [n d]; unfold Qle, Qlt, js_rem1; simpl; intros H0.
  pose proof (Z.rem_bound_pos n (Zpos d)). lia.
Qed.

(** C2, as stated, fails: [getPointAt] hands [t] to the curve untouched.
    On the two-point path from (0,0,0) to (1,0,0), read with an evaluator
    that follows the first chord, the query at 3/2 is not the query at
    3/2 mod 1 = 1/2. *)
Lemma getPointAt_does_not_wrap :
  (2 <= length twoPoints)%nat
  /\ js_rem1 (3 # 2) = 1 # 2
  /\ getPointAt (H := chordHost) (fromPoints twoPoints) (3 # 2)
     <> getPointAt (H := chordHost) (fromPoints twoPoints) (js_rem1 (3 # 2)).
Proof.
  split; [simpl; lia|]. split; [reflexivity|].
  vm_compute. intros E. discriminate E.
Qed.

(** C2, amended.  With at least two control points the query returns what
    the curve evaluator returns at [t] as given, with no reduction of its
    own.  For [t] in [0, 1) the reduced parameter is [t] itself, so the
    query at [t] and at [t mod 1] agree; and the reduction the frame loop
    applies before it queries the look-ahead point lands in [0, 1) for every
    non-negative parameter. *)
Theorem getPointAt_forwards_parameter `{Host} (pts : list Vector3) (t : Q) :
  (2 <= length pts)%nat ->
  getPointAt (fromPoints pts) t
    = curve_getPointAt (mkCurve true true 0.5) pts t
  /\ (0 <= t -> t < 1 ->
      getPointAt (fromPoints pts) t = getPointAt (fromPoints pts) (js_rem1 t))
  /\ (0 <= t -> 0 <= js_rem1 t /\ js_rem1 t < 1).
Proof.
  intros Hlen. split; [|split].
  - unfold getPointAt. rewrite curve_fromPoints, points_fromPoints by exact Hlen.
    destruct (Nat.ltb_spec (length pts) 2); [lia|reflexivity].
  - intros H0 H1. now rewrite js_rem1_unit.
  - apply js_rem1_range.
Qed.

Lemma getPointAt_forwards_parameter_witness :
  (2 <= length twoPoints)%nat
  /\ getPointAt (H := chordHost) (fromPoints twoPoints) (1 # 4)
     = getPointAt (H := chordHost) (fromPoints twoPoints) (js_rem1 (1 # 4)).
Proof.
  assert (Hlen : (2 <= length twoPoints)%nat) by (simpl; lia).
  split; [exact Hlen|].
  destruct (getPointAt_forwards_parameter (H := chordHost) twoPoints (1 # 4)
              Hlen) as [_ [Hwrap _]].
  apply Hwrap; [discriminate | reflexivity].
Defined.

End CameraPathFacts.

(** ** The shooting-star pool *)

Module ShootingStarsFacts.
Import ShootingStars.

(** *** The alpha envelope *)

Lemma newAlpha_fade_in (p A : Q) : p < 0.2 -> newAlpha p A == p / 0.2 * A.
Proof.
  intros Hp. unfold newAlpha.
  destruct (Qlt_le_dec p 0.2) as [_|Hc]; [|lra].
  unfold MathUtils.mapLinear. field.
Qed.

Lemma newAlpha_hold (p A : Q) : 0.2 <= p -> p < 0.8 -> newAlpha p A = A.
Proof.
  intros H1 H2. unfold newAlpha.
  destruct (Qlt_le_dec p 0.2) as [Hc|_]; [lra|].
  destruct (Qlt_le_dec p 0.8) as [_|Hc]; [reflexivity|lra].
Qed.

Lemma newAlpha_fade_out (p A : Q) :
  0.8 <= p -> p < 1 -> newAlpha p A == (1 - p) / 0.2 * A.
Proof.
  intros H1 H2. unfold newAlpha.
  destruct (Qlt_le_dec p 0.2) as [Hc|_]; [lra|].
  destruct (Qlt_le_dec p 0.8) as [Hc|_]; [lra|].
  destruct (Qlt_le_dec p 1) as [_|Hc]; [|lra].
  unfold MathUtils.mapLinear. field.
Qed.

Lemma newAlpha_complete (p A : Q) : 1 <= p -> newAlpha p A = 0.
Proof.
  intros H1. unfold newAlpha.
  destruct (Qlt_le_dec p 0.2) as [Hc|_]; [lra|].
  destruct (Qlt_le_dec p 0.8) as [Hc|_]; [lra|].
  destruct (Qlt_le_dec p 1) as [Hc|_]; [lra|reflexivity].
Qed.

Lemma scale_by_five (x : Q) : x / 0.2 == 5 * x.
Proof. field. Qed.

Lemma newAlpha_fade_in_mono (p q A : Q) :
  0 <= A -> p <= q -> q < 0.2 -> newAlpha p A <= newAlpha q A.
Proof.
  intros HA Hpq Hq.
  rewrite !newAlpha_fade_in by lra. rewrite !scale_by_five. nra.
Qed.

Lemma newAlpha_fade_out_mono (p q A : Q) :
  0 <= A -> 0.8 <= p -> p <= q -> q < 1 -> newAlpha q A <= newAlpha p A.
Proof.
  intros HA Hp Hpq Hq.
  rewrite !newAlpha_fade_out by lra. rewrite !scale_by_five. nra.
Qed.

(** *** The update loop *)

Lemma advance_index (dt : Q) (star : ShootingStar) :
  index (advance dt star) = index star.
Proof. reflexivity. Qed.

Lemma alive_spec (star : ShootingStar) :
  alive star = true <-> progress star < 1.
Proof.
  unfold alive. destruct (Qlt_le_dec (progress star) 1); split; intros;
    try reflexivity; try assumption; try discriminate; lra.
Qed.

(** One iteration at the end of the part of the list still to be visited. *)
Lemma updateAt_last (dt : Q) (front back : list ShootingStar)
    (x : ShootingStar) (s : t) :
  activeShootingStars s = front ++ x :: back ->
  let s' := updateAt dt (length front) s in
  activeShootingStars s'
    = front ++ List.filter alive [advance dt x] ++ back
  /\ alphas s' = writeAlpha (advance dt x) (alphas s)
  /\ sizes s' = sizes s
  /\ lastCheck s' = lastCheck s.
Proof.
  intros Hact. unfold updateAt.
  rewrite Hact, list_lookup_middle by reflexivity.
  simpl List.filter. unfold alive.
  destruct (Qlt_le_dec (progress (advance dt x)) 1) as [Hlt|Hge]; simpl.
  - repeat split.
    rewrite insert_app_r_alt by lia. now rewrite Nat.sub_diag.
  - repeat split.
    + apply delete_middle.
    + rewrite list_insert_insert_eq. unfold writeAlpha.
      now rewrite (newAlpha_complete _ _ Hge).
Qed.

Lemma updateLoop_spec (dt : Q) (front : list ShootingStar) :
  forall (back : list ShootingStar) (s : t),
    activeShootingStars s = front ++ back ->
    let s' := updateLoop dt (length front) s in
    activeShootingStars s'
      = List.filter alive (map (advance dt) front) ++ back
    /\ alphas s' = foldr writeAlpha (alphas s) (map (advance dt) front)
    /\ sizes s' = sizes s
    /\ lastCheck s' = lastCheck s.
Proof.
  induction front as [|x front IH] using rev_ind; intros back s Hact.
  - simpl. auto.
  - rewrite length_app, Nat.add_1_r. cbn [updateLoop].
    rewrite <- app_assoc in Hact. simpl in Hact.
    destruct (updateAt_last dt front back x s Hact) as (Ha & Hal & Hsz & Hlc).
    destruct (IH _ _ Ha) as (Ha' & Hal' & Hsz' & Hlc').
    cbv zeta. rewrite Ha', Hal', Hsz', Hlc', Hal, Hsz, Hlc.
    rewrite map_app, List.filter_app, foldr_app, <- app_assoc.
    repeat split.
Qed.

Lemma updateShootingStars_spec (dt : Q) (s : t) :
  let s' := updateShootingStars dt s in
  activeShootingStars s'
    = List.filter alive (map (advance dt) (activeShootingStars s))
  /\ alphas s'
     = foldr writeAlpha (alphas s) (map (advance dt) (activeShootingStars s))
  /\ sizes s' = sizes s
  /\ lastCheck s' = lastCheck s.
Proof.
  unfold updateShootingStars.
  destruct (updateLoop_spec dt (activeShootingStars s) [] s) as (A & B & C & D).
  { now rewrite app_nil_r. }
  rewrite app_nil_r in A. auto.
Qed.

Lemma length_foldr_writeAlpha (l : list ShootingStar) (a : list Q) :
  length (foldr writeAlpha a l) = length a.
Proof.
  induction l as [|x l IH]; simpl; [reflexivity|].
  unfold writeAlpha at 1. now rewrite length_insert.
Qed.

(** With pairwise distinct slots, the slot of a star holds what that star
    wrote, whatever the other stars wrote. *)
Lemma foldr_writeAlpha_lookup (l : list ShootingStar) (a : list Q)
    (star : ShootingStar) :
  List.NoDup (map index l) -> In star l -> (index star < length a)%nat ->
  foldr writeAlpha a l !! index star
    = Some (newAlpha (progress star) (maxAlpha star)).
Proof.
  induction l as [|x l IH]; intros Hnd Hin Hlen; [destruct Hin|].
  simpl in Hnd. apply List.NoDup_cons_iff in Hnd as [Hx Hnd].
  simpl. unfold writeAlpha at 1. destruct Hin as [->|Hin].
  - apply list_lookup_insert_eq. now rewrite length_foldr_writeAlpha.
  - rewrite list_lookup_insert_ne; [now apply IH|].
    intros E. apply Hx. rewrite E. now apply in_map.
Qed.

Lemma map_index_advance (dt : Q) (l : list ShootingStar) :
  map index (map (advance dt) l) = map index l.
Proof. rewrite map_map. apply map_ext. intros; apply advance_index. Qed.

Lemma updateShootingStars_alpha (dt : Q) (s : t) (star : ShootingStar) :
  In star (activeShootingStars s) ->
  List.NoDup (map index (activeShootingStars s)) ->
  (index star < length (alphas s))%nat ->
  alphas (updateShootingStars dt s) !! index star
    = Some (newAlpha (progress star + dt * speed star * 0.1) (maxAlpha star)).
Proof.
  intros Hin Hnd Hlen.
  destruct (updateShootingStars_spec dt s) as (_ & -> & _).
  apply (foldr_writeAlpha_lookup _ _ (advance dt star)).
  - now rewrite map_index_advance.
  - now apply in_map.
  - exact Hlen.
Qed.

Lemma lookup_In {A : Type} (l : list A) (i : nat) (x : A) :
  l !! i = Some x -> In x l.
Proof. intros Hl. apply list_elem_of_In. eapply list_elem_of_lookup_2, Hl. Qed.

(** The loop iteration that visits a star leaves the envelope value of its
    advanced progress in its slot. *)
Lemma updateAt_alpha (dt : Q) (i : nat) (s : t) (star : ShootingStar) :
  activeShootingStars s !! i = Some star ->
  (index star < length (alphas s))%nat ->
  alphas (updateAt dt i s) !! index star
    = Some (newAlpha (progress star + dt * speed star * 0.1) (maxAlpha star)).
Proof.
  intros Hl Hlen. unfold updateAt. rewrite Hl.
  destruct (Qlt_le_dec (progress (advance dt star)) 1) as [Hlt|Hge];
    cbn [alphas].
  - now apply list_lookup_insert_eq.
  - rewrite list_insert_insert_eq.
    change (progress star + dt * speed star * 0.1)
      with (progress (advance dt star)).
    rewrite (newAlpha_complete _ (maxAlpha star) Hge).
    now apply list_lookup_insert_eq.
Qed.

(** C3.  Let a star be active with maximum alpha [A], and let [p] be its
    progress after the increment of the frame.  The loop iteration of
    [updateShootingStars] that visits the star writes the envelope value
    [newAlpha p A] into its slot, and when the active stars occupy distinct
    slots that value is what the slot holds after the whole update.  The
    envelope is the ramp [p / 0.2 * A] below 0.2, the constant [A] from 0.2
    up to 0.8, the ramp [(1 - p) / 0.2 * A] from 0.8 up to 1; it is 0 at 0,
    [A] at 0.2 and at 0.8, 0 at 1; and for [A >= 0] it rises on the first
    segment, is constant on the second and falls on the third. *)
Theorem alpha_envelope (dt : Q) (s : t) (i : nat) (star : ShootingStar) :
  activeShootingStars s !! i = Some star ->
  (index star < length (alphas s))%nat ->
  let p := progress star + dt * speed star * 0.1 in
  let A := maxAlpha star in
  alphas (updateAt dt i s) !! index star = Some (newAlpha p A)
  /\ (List.NoDup (map index (activeShootingStars s)) ->
      alphas (updateShootingStars dt s) !! index star = Some (newAlpha p A))
  /\ (p < 0.2 -> newAlpha p A == p / 0.2 * A)
  /\ (0.2 <= p -> p < 0.8 -> newAlpha p A == A)
  /\ (0.8 <= p -> p < 1 -> newAlpha p A == (1 - p) / 0.2 * A)
  /\ (newAlpha 0 A == 0 /\ newAlpha 0.2 A == A
      /\ newAlpha 0.8 A == A /\ newAlpha 1 A == 0)
  /\ (0 <= A ->
      forall x y : Q, x <= y ->
        (y < 0.2 -> newAlpha x A <= newAlpha y A)
        /\ (0.2 <= x -> y < 0.8 -> newAlpha x A == newAlpha y A)
        /\ (0.8 <= x -> y < 1 -> newAlpha y A <= newAlpha x A)).
Proof.
  intros Hl Hlen p A.
  split; [now apply updateAt_alpha|].
  split.
  { intros Hnd. apply updateShootingStars_alpha; try assumption.
    eapply lookup_In, Hl. }
  split; [apply newAlpha_fade_in|].
  split; [intros H1 H2; now rewrite newAlpha_hold|].
  split; [apply newAlpha_fade_out|].
  split.
  - split; [|split; [|split]].
    + rewrite newAlpha_fade_in by reflexivity. field.
    + rewrite newAlpha_hold; [reflexivity|discriminate|reflexivity].
    + rewrite newAlpha_fade_out; [field|discriminate|reflexivity].
    + rewrite newAlpha_complete; [reflexivity|discriminate].
  - intros HA x y Hxy. split; [|split].
    + intros Hy. now apply newAlpha_fade_in_mono.
    + intros Hx Hy. rewrite !newAlpha_hold by lra. reflexivity.
    + intros Hx Hy. now apply newAlpha_fade_out_mono.
Qed.

Lemma alpha_envelope_witness :
  let s := poolWith [starAt 0 (1 # 10); starAt 1 (1 # 2)] in
  let star := starAt 0 (1 # 10) in
  activeShootingStars s !! 0%nat = Some star
  /\ (index star < length (alphas s))%nat
  /\ alphas (updateAt (1 # 2) 0 s) !! 0%nat
     = Some (newAlpha ((1 # 10) + (1 # 2) * 1 * 0.1) (4 # 5)).
Proof.
  intros s star.
  assert (Hl : activeShootingStars s !! 0%nat = Some star) by reflexivity.
  assert (Hlen : (index star < length (alphas s))%nat) by (simpl; lia).
  split; [exact Hl|]. split; [exact Hlen|].
  exact (proj1 (alpha_envelope (1 # 2) s 0 star Hl Hlen)).
Defined.

Lemma NoDup_map_eq {A B : Type} (f : A -> B) (l : list A) (a b : A) :
  List.NoDup (map f l) -> In a l -> In b l -> f a = f b -> a = b.
Proof.
  induction l as [|x l IH]; intros Hnd Ha Hb E; [destruct Ha|].
  simpl in Hnd. apply List.NoDup_cons_iff in Hnd as [Hx Hnd].
  destruct Ha as [->|Ha], Hb as [->|Hb]; try reflexivity.
  - exfalso. apply Hx. rewrite E. now apply in_map.
  - exfalso. apply Hx. rewrite <- E. now apply in_map.
  - now apply IH.
Qed.

(** The loop iteration that takes a star to progress 1 or beyond splices
    it out of the list. *)
Lemma updateAt_complete (dt : Q) (i : nat) (s : t) (star : ShootingStar) :
  activeShootingStars s !! i = Some star ->
  1 <= progress star + dt * speed star * 0.1 ->
  activeShootingStars (updateAt dt i s) = delete i (activeShootingStars s).
Proof.
  intros Hl Hdone. unfold updateAt. rewrite Hl.
  destruct (Qlt_le_dec (progress (advance dt star)) 1) as [Hlt|_];
    [simpl in Hlt; lra | reflexivity].
Qed.

(** C7.  Let an active star reach progress 1 or beyond with the increment
    of the frame.  The loop iteration of [updateShootingStars] that visits it
    splices it out of the active list and leaves alpha 0 in its slot.  After
    the whole update the star is not in the active list, and every star the
    update keeps has progress below 1, so the removal happens on the first
    update that reaches 1; when the active stars occupy distinct slots, the
    slot reads alpha 0 after the update and no active star sits on it. *)
Theorem completed_star_removed (dt : Q) (s : t) (i : nat)
    (star : ShootingStar) :
  activeShootingStars s !! i = Some star ->
  (index star < length (alphas s))%nat ->
  1 <= progress star + dt * speed star * 0.1 ->
  let s' := updateShootingStars dt s in
  (activeShootingStars (updateAt dt i s) = delete i (activeShootingStars s)
   /\ alphas (updateAt dt i s) !! index star = Some 0)
  /\ ~ In (advance dt star) (activeShootingStars s')
  /\ (forall x, In x (activeShootingStars s') -> progress x < 1)
  /\ (List.NoDup (map index (activeShootingStars s)) ->
      alphas s' !! index star = Some 0
      /\ ~ In (index star) (map index (activeShootingStars s'))).
Proof.
  intros Hl Hlen Hdone s'.
  pose proof (lookup_In _ _ _ Hl) as Hin.
  destruct (updateShootingStars_spec dt s) as (Hact & _).
  fold s' in Hact.
  assert (Hkept : forall x, In x (activeShootingStars s') -> progress x < 1).
  { intros x Hx. rewrite Hact in Hx. apply List.filter_In in Hx as [_ Hx].
    now apply alive_spec. }
  split; [split|split; [|split]].
  - now apply (updateAt_complete dt i s star).
  - rewrite (updateAt_alpha dt i s star Hl Hlen).
    now rewrite newAlpha_complete.
  - intros Hx. apply Hkept in Hx. simpl in Hx. lra.
  - exact Hkept.
  - intros Hnd. split.
    + unfold s'. rewrite updateShootingStars_alpha by assumption.
      now rewrite newAlpha_complete.
    + intros Hx. apply in_map_iff in Hx as (y & Hy & Hyin).
      pose proof (Hkept y Hyin) as Hp.
      rewrite Hact in Hyin. apply List.filter_In in Hyin as [Hyin _].
      apply in_map_iff in Hyin as (z & <- & Hz).
      rewrite advance_index in Hy.
      assert (z = star) as -> by (eapply NoDup_map_eq; eauto).
      simpl in Hp. lra.
Qed.

Lemma completed_star_removed_witness :
  let s := poolWith [starAt 0 (1 # 10); starAt 1 (19 # 20)] in
  let star := starAt 1 (19 # 20) in
  activeShootingStars s !! 1%nat = Some star
  /\ (index star < length (alphas s))%nat
  /\ 1 <= progress star + 1 * speed star * 0.1
  /\ ~ In (advance 1 star) (activeShootingStars (updateShootingStars 1 s))
  /\ alphas (updateAt 1 1 s) !! 1%nat = Some 0.
Proof.
  intros s star.
  assert (Hl : activeShootingStars s !! 1%nat = Some star) by reflexivity.
  assert (Hlen : (index star < length (alphas s))%nat) by (simpl; lia).
  assert (Hdone : 1 <= progress star + 1 * speed star * 0.1) by discriminate.
  destruct (completed_star_removed 1 s 1 star Hl Hlen Hdone)
    as ((_ & Halpha) & Hgone & _).
  split; [exact Hl|]. split; [exact Hlen|]. split; [exact Hdone|].
  split; [exact Hgone|exact Halpha].
Defined.

(** *** Spawning *)

Section SpawnFacts.
Context `{Host}.

Lemma length_updateShootingStars (dt : Q) (s : t) :
  (length (activeShootingStars (updateShootingStars dt s))
   <= length (activeShootingStars s))%nat.
Proof.
  destruct (updateShootingStars_spec dt s) as (-> & _).
  etransitivity; [apply List.filter_length_le|]. now rewrite length_map.
Qed.

(** Whatever array object the slot search reads, a spawn keeps the number
    of active stars within [activeMax]. *)
Lemma createNewShootingStarOn_cap (o : ArrayObject) (d : SpawnDraws) (s : t) :
  (length (activeShootingStars s) <= activeMax)%nat ->
  (length (activeShootingStars (fst (createNewShootingStarOn o d s)))
   <= activeMax)%nat.
Proof.
  intros Hs. unfold createNewShootingStarOn.
  destruct (Nat.leb_spec activeMax (length (activeShootingStars s)))
    as [Hfull|Hroom]; [exact Hs|].
  destruct (findSlot o 0 count) as [[slot|]|e]; simpl; try exact Hs.
  rewrite length_app; simpl. lia.
Qed.

(** With [activeMax] stars active the spawn returns at its first line. *)
Lemma createNewShootingStarOn_full (o : ArrayObject) (d : SpawnDraws) (s : t) :
  (activeMax <= length (activeShootingStars s))%nat ->
  createNewShootingStarOn o d s = (s, Normal).
Proof.
  intros Hfull. unfold createNewShootingStarOn.
  destruct (Nat.leb_spec activeMax (length (activeShootingStars s)));
    [reflexivity|lia].
Qed.

Lemma update_cap (dt : Q) (now : Z) (roll : Q) (d : SpawnDraws) (s : t) :
  (length (activeShootingStars s) <= activeMax)%nat ->
  (length (activeShootingStars (fst (update dt now roll d s)))
   <= activeMax)%nat.
Proof.
  intros Hs. pose proof (length_updateShootingStars dt s) as Hle.
  unfold update.
  destruct (3000 <? now - lastCheck (updateShootingStars dt s))%Z;
    [|simpl; lia].
  destruct (Qlt_le_dec roll 0.4); [|simpl; lia].
  apply createNewShootingStarOn_cap. simpl. lia.
Qed.

Lemma reachable_cap (s : t) :
  reachable s -> (length (activeShootingStars s) <= activeMax)%nat.
Proof.
  induction 1 as [|dt now roll d s _ IH].
  - simpl. unfold activeMax. lia.
  - now apply update_cap.
Qed.

(** C4.  In every reachable state of the pool at most 3 stars are active;
    and in any pool with 3 active stars a spawn request returns normally
    with the pool exactly as it was: nothing is written, no fourth star is
    added, nothing is thrown. *)
Theorem active_stars_capped (s full : t) (d : SpawnDraws) :
  reachable s ->
  length (activeShootingStars full) = 3%nat ->
  (length (activeShootingStars s) <= 3)%nat
  /\ createNewShootingStar d full = (full, Normal).
Proof.
  intros Hs Hfull. split.
  - exact (reachable_cap s Hs).
  - apply createNewShootingStarOn_full. rewrite Hfull. reflexivity.
Qed.

(** The slot search of [createNewShootingStar] reads [alphas.array] on the
    typed array itself: with room for a star it throws at the first slot
    and leaves the pool untouched. *)
Lemma createNewShootingStar_throws (d : SpawnDraws) (s : t) :
  (length (activeShootingStars s) < activeMax)%nat ->
  createNewShootingStar d s = (s, Throw TypeError).
Proof.
  intros Hroom. unfold createNewShootingStar, createNewShootingStarOn.
  destruct (Nat.leb_spec activeMax (length (activeShootingStars s)));
    [lia|reflexivity].
Qed.

(** Hence no reachable pool ever holds a star, and its alpha array stays as
    created. *)
Lemma reachable_idle (s : t) :
  reachable s -> activeShootingStars s = [] /\ alphas s = alphas init.
Proof.
  induction 1 as [|dt now roll d s _ [IHa IHb]]; [split; reflexivity|].
  assert (Hu : updateShootingStars dt s = s).
  { unfold updateShootingStars. now rewrite IHa. }
  unfold update. rewrite Hu.
  destruct (3000 <? now - lastCheck s)%Z; [|now split].
  destruct (Qlt_le_dec roll 0.4); [|now split].
  rewrite createNewShootingStar_throws; [now split|].
  simpl. rewrite IHa. simpl. unfold activeMax. lia.
Qed.

(** C10, at the first spawn of a session: the call throws before the lines
    that activate the slot, and slot 0 still reads alpha 0, not 0.1. *)
Theorem first_spawn_throws (d : SpawnDraws) :
  createNewShootingStar d init = (init, Throw TypeError)
  /\ alphas (fst (createNewShootingStar d init)) !! 0%nat = Some 0
  /\ activeShootingStars (fst (createNewShootingStar d init)) = [].
Proof.
  rewrite createNewShootingStar_throws by (simpl; unfold activeMax; lia).
  repeat split.
Qed.

(** What the activation lines would write, had the search found slot 0. *)
Lemma activate_alpha (d : SpawnDraws) (slot : nat) (s : t) :
  (slot < length (alphas s))%nat ->
  alphas (activate d slot s) !! slot = Some 0.1.
Proof. intros Hlen. simpl. now apply list_lookup_insert_eq. Qed.

End SpawnFacts.

Lemma active_stars_capped_witness :
  let full := poolWith [starAt 0 (1 # 10); starAt 1 (1 # 2); starAt 2 (3 # 4)] in
  reachable (H := chordHost) init
  /\ length (activeShootingStars full) = 3%nat
  /\ (length (activeShootingStars init) <= 3)%nat
  /\ createNewShootingStar (H := chordHost) someDraws full = (full, Normal).
Proof.
  intros full.
  assert (Hr : reachable (H := chordHost) init) by constructor.
  assert (Hf : length (activeShootingStars full) = 3%nat) by reflexivity.
  split; [exact Hr|]. split; [exact Hf|].
  exact (active_stars_capped (H := chordHost) init full someDraws Hr Hf).
Defined.

End ShootingStarsFacts.

(** ** The frame function and the supernova *)

Module AnimateFacts.

Lemma SceneObject_eqb_refl (o : SceneObject) : SceneObject_eqb o o = true.
Proof. destruct o; simpl; apply Nat.eqb_refl. Qed.

Lemma scene_remove_spec (o x : SceneObject) (scene : list SceneObject) :
  In x (scene_remove o scene) -> In x scene /\ x <> o.
Proof.
  unfold scene_remove. intros Hx. apply List.filter_In in Hx as [Hin Hne].
  split; [exact Hin|]. intros ->. now rewrite SceneObject_eqb_refl in Hne.
Qed.

Section WithHost.
Context `{Host}.

(** *** The phases of the supernova *)

Lemma progress_below (p b : Q) : p < b -> b <= 1 -> Qmin p 1 == p.
Proof. intros Hp Hb. apply Q.min_l. lra. Qed.

Lemma progress_clamped (p : Q) : 1 <= p -> Qmin p 1 == 1.
Proof. intros Hp. now apply Q.min_r. Qed.

(** The teardown of a completed event. *)
Lemma updateDramaticEvent_terminal (elapsed : Q) (s : State)
    (ev : DramaticEvent) :
  dramaticEventTriggered s = true ->
  dramaticEvent s = Some ev ->
  1 <= (elapsed - startTime ev) / duration ev ->
  let s' := updateDramaticEvent elapsed s in
  dramaticEventTriggered s' = false
  /\ dramaticEvent s' = None
  /\ ~ In (SupernovaMesh (ev_serial ev)) (sceneChildren s')
  /\ ~ In (SupernovaLight (ev_serial ev)) (sceneChildren s').
Proof.
  intros Hflag Hev Hp1. cbv zeta. unfold updateDramaticEvent.
  rewrite Hflag, Hev.
  pose proof (progress_clamped _ Hp1) as Hm.
  destruct (Qlt_le_dec (Qmin _ 1) 1) as [Hc|_]; [lra|].
  split; [reflexivity|]. split; [reflexivity|].
  cbn [sceneChildren set_event]. split; intros Hin.
  - apply scene_remove_spec in Hin as [Hin _].
    apply scene_remove_spec in Hin as [_ Hne]. now apply Hne.
  - apply scene_remove_spec in Hin as [_ Hne]. now apply Hne.
Qed.

(** C6.  For an event in flight with duration 25 and
    [p = (elapsed - startTime) / 25], the event block of [animate] leaves:
    for [p < 0.3] scale [1 + 100 p] and light intensity [10 p]; for
    [0.3 <= p < 0.7] the scale it found and intensity
    [3 + 1.5 sin (3 elapsed)]; for [0.7 <= p < 1] scale [30 f] and intensity
    [3 f] with [f = 1 - (p - 0.7) / 0.3]; in these phases the event stays
    triggered and the scene is untouched.  For [p >= 1] the mesh and the
    light are no longer in the scene, the event record is gone and the
    triggered flag is cleared. *)
Theorem supernova_phases (elapsed : Q) (s : State) (ev : DramaticEvent) :
  dramaticEventTriggered s = true ->
  dramaticEvent s = Some ev ->
  duration ev = 25 ->
  let p := (elapsed - startTime ev) / 25 in
  let s' := updateDramaticEvent elapsed s in
  (p < 1 ->
     dramaticEventTriggered s' = true
     /\ sceneChildren s' = sceneChildren s
     /\ exists ev', dramaticEvent s' = Some ev'
        /\ (p < 0.3 ->
              supernova_scale ev' == 1 + 100 * p
              /\ supernovaLight_intensity ev' == 10 * p)
        /\ (0.3 <= p -> p < 0.7 ->
              supernova_scale ev' = supernova_scale ev
              /\ supernovaLight_intensity ev'
                 = 3 + Math_sin (elapsed * 3) * 1.5)
        /\ (0.7 <= p ->
              supernova_scale ev' == 30 * (1 - (p - 0.7) / 0.3)
              /\ supernovaLight_intensity ev' == 3 * (1 - (p - 0.7) / 0.3)))
  /\ (1 <= p ->
        dramaticEventTriggered s' = false
        /\ dramaticEvent s' = None
        /\ ~ In (SupernovaMesh (ev_serial ev)) (sceneChildren s')
        /\ ~ In (SupernovaLight (ev_serial ev)) (sceneChildren s')).
Proof.
  intros Hflag Hev Hdur p s'.
  split.
  - unfold s', updateDramaticEvent. rewrite Hflag, Hev, Hdur. fold p.
    intros Hp1. pose proof (progress_below p 1 Hp1 ltac:(lra)) as Hm.
    destruct (Qlt_le_dec (Qmin p 1) 1) as [_|Hc]; [|lra].
    split; [reflexivity|]. split; [reflexivity|].
    eexists. split; [reflexivity|].
    destruct (Qlt_le_dec (Qmin p 1) 0.3) as [H3|H3];
      [|destruct (Qlt_le_dec (Qmin p 1) 0.7) as [H7|H7]]; cbn [supernova_scale supernovaLight_intensity].
    + split; [|split].
      * intros _. split; rewrite Hm; ring.
      * intros Hc. lra.
      * intros Hc. lra.
    + split; [|split].
      * intros Hc. lra.
      * intros _ _. split; reflexivity.
      * intros Hc. lra.
    + split; [|split].
      * intros Hc. lra.
      * intros _ Hc. lra.
      * intros _. split; rewrite Hm; ring.
  - intros Hp1.
    apply (updateDramaticEvent_terminal elapsed s ev Hflag Hev).
    rewrite Hdur. exact Hp1.
Qed.

(** *** What each part of a frame leaves alone *)

Lemma updateObjects_keeps (elapsed : Q) (s : State) :
  let s' := updateObjects elapsed s in
  dramaticEventTriggered s' = dramaticEventTriggered s
  /\ dramaticEvent s' = dramaticEvent s
  /\ journeyStarted s' = journeyStarted s
  /\ isAutoPilot s' = isAutoPilot s
  /\ shootingStars s' = shootingStars s.
Proof.
  unfold updateObjects. destruct (updateableObjects s); repeat split.
Qed.

Lemma updateDramaticEvent_dormant (elapsed : Q) (s : State) :
  dramaticEventTriggered s = false -> updateDramaticEvent elapsed s = s.
Proof. intros Hflag. unfold updateDramaticEvent. now rewrite Hflag. Qed.

Lemma updateDramaticEvent_keeps (elapsed : Q) (s : State) :
  let s' := updateDramaticEvent elapsed s in
  journeyStarted s' = journeyStarted s
  /\ isAutoPilot s' = isAutoPilot s
  /\ shootingStars s' = shootingStars s
  /\ updateableObjects s' = updateableObjects s.
Proof.
  unfold updateDramaticEvent.
  destruct (dramaticEventTriggered s), (dramaticEvent s) as [ev|];
    try (repeat split; fail).
  destruct (Qlt_le_dec _ 1); repeat split.
Qed.

Lemma checkLocationInfo_keeps (fi : FrameInput) (s : State) :
  let s' := checkLocationInfo fi s in
  dramaticEventTriggered s' = dramaticEventTriggered s
  /\ dramaticEvent s' = dramaticEvent s
  /\ updateableObjects s' = updateableObjects s
  /\ sceneChildren s' = sceneChildren s
  /\ shootingStars s' = shootingStars s.
Proof.
  unfold checkLocationInfo.
  destruct (negb (journeyStarted s)); [repeat split|].
  destruct (locationNow fi - lastLocationChangeTime s <? 10000)%Z;
    [repeat split|].
  destruct (findLocation _ _ _ _); repeat split.
Qed.

Lemma triggerDramaticEvent_fires (fi : FrameInput) (s : State) :
  dramaticEventTriggered s = false ->
  dramaticEventTriggered (triggerDramaticEvent fi s) = true
  /\ eventSerial (triggerDramaticEvent fi s) = S (eventSerial s).
Proof.
  intros Hflag. unfold triggerDramaticEvent. rewrite Hflag. split; reflexivity.
Qed.

(** The guard of the trigger, at the point where [animate] evaluates it. *)
Lemma cameraStep_trigger (fi : FrameInput) (g : State) :
  dramaticEventTriggered g = false ->
  (dramaticEventTriggered (cameraStep fi g) = true
   <-> journeyStarted g = true /\ isAutoPilot g = true
       /\ 60 < elapsedTime fi /\ triggerRoll fi < 0.001).
Proof.
  intros Hflag. unfold cameraStep.
  destruct (journeyStarted g), (isAutoPilot g); simpl;
    try (rewrite Hflag; split; [discriminate | intros (A & B & _); discriminate]).
  unfold autoPilotStep.
  set (s1 := set_camera _ g).
  destruct (checkLocationInfo_keeps fi s1) as (Hk & _).
  change (dramaticEventTriggered s1) with (dramaticEventTriggered g) in Hk.
  rewrite Hflag in Hk. rewrite Hk. cbn [negb].
  destruct (Qlt_le_dec 60 (elapsedTime fi)) as [Ht|Ht];
    [destruct (Qlt_le_dec (triggerRoll fi) 0.001) as [Hr|Hr]|].
  - destruct (triggerDramaticEvent_fires fi _ Hk) as [-> _].
    split; [intros _; repeat split; assumption | reflexivity].
  - rewrite Hk. split; [discriminate | intros (_ & _ & _ & Hc); lra].
  - rewrite Hk. split; [discriminate | intros (_ & _ & Hc & _); lra].
Qed.

Lemma animate_normal (fi : FrameInput) (s : State) :
  snd (animate fi s) = Normal ->
  exists stars,
    fst (animate fi s) = cameraStep fi (beforeCamera fi (set_shootingStars stars s)).
Proof.
  unfold animate.
  destruct (ShootingStars.update _ _ _ _ _) as [stars [|e]]; simpl.
  - intros _. now exists stars.
  - discriminate.
Qed.

(** C5, amended.  On a tick that is not cut short by an exception of the
    star update, the event goes from Dormant to Triggered exactly when it is
    not already triggered, the journey has been started, the autopilot flag
    is set, the elapsed time exceeds 60 s and the roll of the trial is below
    0.001; at or before 60 s a Dormant event stays Dormant whatever the
    roll. *)
Theorem trigger_guard (fi : FrameInput) (s : State) :
  snd (animate fi s) = Normal ->
  (dramaticEventTriggered s = false
   /\ dramaticEventTriggered (fst (animate fi s)) = true
   <-> dramaticEventTriggered s = false
       /\ journeyStarted s = true /\ isAutoPilot s = true
       /\ 60 < elapsedTime fi /\ triggerRoll fi < 0.001)
  /\ (dramaticEventTriggered s = false -> elapsedTime fi <= 60 ->
      dramaticEventTriggered (fst (animate fi s)) = false).
Proof.
  intros Hnormal.
  destruct (animate_normal fi s Hnormal) as [stars ->].
  set (s1 := set_shootingStars stars s).
  assert (Hiff : dramaticEventTriggered s = false ->
            (dramaticEventTriggered (cameraStep fi (beforeCamera fi s1)) = true
             <-> journeyStarted s = true /\ isAutoPilot s = true
                 /\ 60 < elapsedTime fi /\ triggerRoll fi < 0.001)).
  { intros Hflag.
    assert (Hg : beforeCamera fi s1 = updateObjects (elapsedTime fi) s1).
    { unfold beforeCamera. apply updateDramaticEvent_dormant.
      destruct (updateObjects_keeps (elapsedTime fi) s1) as (-> & _).
      exact Hflag. }
    destruct (updateObjects_keeps (elapsedTime fi) s1)
      as (Hf & _ & Hj & Ha & _).
    change (dramaticEventTriggered s1) with (dramaticEventTriggered s) in Hf.
    change (journeyStarted s1) with (journeyStarted s) in Hj.
    change (isAutoPilot s1) with (isAutoPilot s) in Ha.
    rewrite Hflag in Hf. rewrite Hg.
    pose proof (cameraStep_trigger fi _ Hf) as Hiff.
    now rewrite Hj, Ha in Hiff. }
  split.
  - split.
    + intros [Hflag Hfired]. split; [exact Hflag|]. now apply Hiff.
    + intros [Hflag Hconds]. split; [exact Hflag|]. now apply Hiff.
  - intros Hflag Hearly. apply not_true_is_false. intros E.
    apply (Hiff Hflag) in E as (_ & _ & Hc & _). lra.
Qed.

End WithHost.

(** C5, as stated, fails before the journey has started: the autopilot flag
    is set, the event is Dormant, 61 s have elapsed and the roll is 0, yet
    the frame runs to its end without triggering. *)
Lemma trigger_needs_journey :
  isAutoPilot session0 = true
  /\ dramaticEventTriggered session0 = false
  /\ 60 < elapsedTime frame61
  /\ triggerRoll frame61 < 0.001
  /\ snd (animate (H := chordHost) frame61 session0) = Normal
  /\ dramaticEventTriggered (fst (animate (H := chordHost) frame61 session0))
     = false.
Proof.
  split; [reflexivity|]. split; [reflexivity|].
  split; [reflexivity|]. split; [reflexivity|].
  split; vm_compute; reflexivity.
Qed.

Lemma trigger_guard_witness :
  let s := startJourney session0 in
  snd (animate (H := chordHost) frame61 s) = Normal
  /\ dramaticEventTriggered s = false
  /\ dramaticEventTriggered (fst (animate (H := chordHost) frame61 s)) = true.
Proof.
  intros s.
  assert (Hnormal : snd (animate (H := chordHost) frame61 s) = Normal)
    by (vm_compute; reflexivity).
  split; [exact Hnormal|].
  destruct (trigger_guard (H := chordHost) frame61 s Hnormal)
    as [[_ Hfire] _].
  apply Hfire. repeat split.
Defined.

Lemma supernova_phases_witness :
  let ev := mkEvent 0 1 0 1 61 25 in
  let s :=
    set_event true 0 (Some ev) [SupernovaMesh 0; SupernovaLight 0] 1
              (startJourney session0) in
  dramaticEventTriggered s = true
  /\ dramaticEvent s = Some ev
  /\ duration ev = 25
  /\ (66 - 61) / 25 < 1
  /\ dramaticEventTriggered (updateDramaticEvent (H := chordHost) 66 s) = true.
Proof.
  intros ev s.
  assert (Hflag : dramaticEventTriggered s = true) by reflexivity.
  assert (Hev : dramaticEvent s = Some ev) by reflexivity.
  assert (Hdur : duration ev = 25) by reflexivity.
  assert (Hp : (66 - 61) / 25 < 1) by reflexivity.
  split; [exact Hflag|]. split; [exact Hev|]. split; [exact Hdur|].
  split; [exact Hp|].
  destruct (supernova_phases (H := chordHost) 66 s ev Hflag Hev Hdur)
    as [Hrun _].
  exact (proj1 (Hrun Hp)).
Defined.

(** *** The event is not one-shot *)

Section Retrigger.
Context `{Host}.

Lemma beforeCamera_serial (fi : FrameInput) (s : State) :
  eventSerial (beforeCamera fi s) = eventSerial s.
Proof.
  unfold beforeCamera.
  transitivity (eventSerial (updateObjects (elapsedTime fi) s)).
  - generalize (updateObjects (elapsedTime fi) s). intros g.
    unfold updateDramaticEvent.
    destruct (dramaticEventTriggered g), (dramaticEvent g); try reflexivity.
    destruct (Qlt_le_dec _ 1); reflexivity.
  - unfold updateObjects. destruct (updateableObjects s); reflexivity.
Qed.

Lemma cameraStep_serial (fi : FrameInput) (g : State) :
  dramaticEventTriggered g = false ->
  dramaticEventTriggered (cameraStep fi g) = true ->
  eventSerial (cameraStep fi g) = S (eventSerial g).
Proof.
  intros Hflag Hfired.
  apply (cameraStep_trigger fi g Hflag) in Hfired as (Hj & Ha & Ht & Hr).
  unfold cameraStep. rewrite Hj, Ha. simpl. unfold autoPilotStep.
  set (s1 := set_camera _ g).
  destruct (checkLocationInfo_keeps fi s1) as (Hk & _).
  change (dramaticEventTriggered s1) with (dramaticEventTriggered g) in Hk.
  rewrite Hflag in Hk. rewrite Hk. cbn [negb].
  destruct (Qlt_le_dec 60 (elapsedTime fi)) as [_|Hc]; [|lra].
  destruct (Qlt_le_dec (triggerRoll fi) 0.001) as [_|Hc]; [|lra].
  destruct (triggerDramaticEvent_fires fi _ Hk) as [_ ->].
  f_equal. unfold checkLocationInfo.
  destruct (negb (journeyStarted s1)); [reflexivity|].
  destruct (locationNow fi - lastLocationChangeTime s1 <? 10000)%Z;
    [reflexivity|].
  destruct (findLocation _ _ _ _); reflexivity.
Qed.

(** Once an event has run its 25 s, the frame that tears it down clears the
    flag before the trigger is tested, so the same frame can start the next
    event. *)
Lemma completed_event_can_retrigger (fi : FrameInput) (s : State)
    (ev : DramaticEvent) :
  journeyStarted s = true -> isAutoPilot s = true ->
  dramaticEventTriggered s = true -> dramaticEvent s = Some ev ->
  duration ev = 25 ->
  25 <= elapsedTime fi - startTime ev ->
  60 < elapsedTime fi -> triggerRoll fi < 0.001 ->
  snd (animate fi s) = Normal ->
  dramaticEventTriggered (fst (animate fi s)) = true
  /\ eventSerial (fst (animate fi s)) = S (eventSerial s).
Proof.
  intros Hj Ha Hflag Hev Hdur Hlate Ht Hr Hnormal.
  destruct (animate_normal fi s Hnormal) as [stars ->].
  set (s1 := set_shootingStars stars s).
  set (s2 := updateObjects (elapsedTime fi) s1).
  destruct (updateObjects_keeps (elapsedTime fi) s1) as (Hf2 & He2 & Hj2 & Ha2 & _).
  fold s2 in Hf2, He2, Hj2, Ha2.
  change (dramaticEventTriggered s1) with (dramaticEventTriggered s) in Hf2.
  change (dramaticEvent s1) with (dramaticEvent s) in He2.
  change (journeyStarted s1) with (journeyStarted s) in Hj2.
  change (isAutoPilot s1) with (isAutoPilot s) in Ha2.
  rewrite Hflag in Hf2. rewrite Hev in He2.
  assert (Hp : 1 <= (elapsedTime fi - startTime ev) / duration ev).
  { rewrite Hdur.
    assert (E : (elapsedTime fi - startTime ev) / 25
                 == (elapsedTime fi - startTime ev) * (1 # 25)) by field.
    rewrite E. lra. }
  destruct (updateDramaticEvent_terminal (elapsedTime fi) s2 ev Hf2 He2 Hp)
    as (Hf3 & _).
  destruct (updateDramaticEvent_keeps (elapsedTime fi) s2) as (Hj3 & Ha3 & _).
  unfold beforeCamera. fold s2.
  set (g := updateDramaticEvent (elapsedTime fi) s2) in *.
  assert (Hfired : dramaticEventTriggered (cameraStep fi g) = true).
  { apply (cameraStep_trigger fi g Hf3).
    rewrite Hj3, Ha3, Hj2, Ha2. repeat split; assumption. }
  split; [exact Hfired|].
  rewrite (cameraStep_serial fi g Hf3 Hfired). f_equal.
  exact (beforeCamera_serial fi s1).
Qed.

End Retrigger.

(** C1 on a three-frame session with the journey started and the autopilot
    on.  The trial succeeds at 61 s and the first supernova (serial 0) is
    created; at 87 s it has completed and the controller is Dormant, with the
    event record gone; at 88 s the trial succeeds again and a second
    supernova (serial 1) is in the scene. *)
Theorem supernova_triggers_twice :
  let s1 := fst (animate (H := chordHost) frame61 (startJourney session0)) in
  let s2 := fst (animate (H := chordHost) frame87 s1) in
  let s3 := fst (animate (H := chordHost) frame88 s2) in
  (dramaticEventTriggered s1 = true
   /\ sceneChildren s1
      = [SupernovaMesh 0; SupernovaLight 0; ShockwaveParticles 0])
  /\ (dramaticEventTriggered s2 = false /\ dramaticEvent s2 = None
      /\ sceneChildren s2 = [])
  /\ (dramaticEventTriggered s3 = true /\ eventSerial s3 = 2%nat
      /\ sceneChildren s3
         = [SupernovaMesh 1; SupernovaLight 1; ShockwaveParticles 1]).
Proof. vm_compute. intuition reflexivity. Qed.

(** *** Switching between autopilot and manual control *)

Section ModeSwitch.
Context `{Host}.

(** The switch writes the mode flag and [controls.enabled], nothing else. *)
Lemma toggleControlMode_keeps (s : State) :
  let s' := toggleControlMode s in
  shootingStars s' = shootingStars s
  /\ updateableObjects s' = updateableObjects s
  /\ dramaticEventTriggered s' = dramaticEventTriggered s
  /\ dramaticEvent s' = dramaticEvent s
  /\ sceneChildren s' = sceneChildren s
  /\ camera s' = camera s
  /\ eventSerial s' = eventSerial s.
Proof.
  unfold toggleControlMode. destruct (negb (journeyStarted s)); repeat split.
Qed.

Lemma onSpaceKey_keeps (s : State) :
  let s' := onSpaceKey s in
  shootingStars s' = shootingStars s
  /\ updateableObjects s' = updateableObjects s
  /\ dramaticEventTriggered s' = dramaticEventTriggered s
  /\ dramaticEvent s' = dramaticEvent s
  /\ sceneChildren s' = sceneChildren s.
Proof. repeat split. Qed.

(** The shockwave and event updates of a frame do not read the mode. *)
Lemma beforeCamera_set_mode (fi : FrameInput) (m : bool) (s : State) :
  beforeCamera fi (set_mode m s) = set_mode m (beforeCamera fi s).
Proof.
  unfold beforeCamera, updateObjects. cbn [updateableObjects set_mode].
  destruct (updateableObjects s) as [objs|];
    unfold updateDramaticEvent;
    cbn [dramaticEventTriggered dramaticEvent set_mode set_objects];
    destruct (dramaticEventTriggered s), (dramaticEvent s) as [ev|];
    try reflexivity;
    destruct (Qlt_le_dec _ 1); reflexivity.
Qed.

Lemma cameraStep_keeps_stars (fi : FrameInput) (g : State) :
  shootingStars (cameraStep fi g) = shootingStars g.
Proof.
  unfold cameraStep.
  destruct (journeyStarted g && isAutoPilot g);
    [|destruct (negb (isAutoPilot g)); reflexivity].
  unfold autoPilotStep. set (s1 := set_camera _ g).
  destruct (checkLocationInfo_keeps fi s1) as (_ & _ & _ & _ & Hs).
  change (shootingStars s1) with (shootingStars g) in Hs.
  destruct (negb (dramaticEventTriggered _)); [|exact Hs].
  destruct (Qlt_le_dec 60 (elapsedTime fi)); [|exact Hs].
  destruct (Qlt_le_dec (triggerRoll fi) 0.001); [|exact Hs].
  unfold triggerDramaticEvent.
  destruct (dramaticEventTriggered _); [exact Hs|]. exact Hs.
Qed.

(** While an event is in flight, the camera branch leaves it, the
    shockwaves and the scene alone, in either mode. *)
Lemma cameraStep_keeps_in_flight (fi : FrameInput) (g : State) :
  dramaticEventTriggered g = true ->
  dramaticEvent (cameraStep fi g) = dramaticEvent g
  /\ updateableObjects (cameraStep fi g) = updateableObjects g
  /\ sceneChildren (cameraStep fi g) = sceneChildren g.
Proof.
  intros Hflag. unfold cameraStep.
  destruct (journeyStarted g && isAutoPilot g);
    [|destruct (negb (isAutoPilot g)); repeat split].
  unfold autoPilotStep. set (s1 := set_camera _ g).
  destruct (checkLocationInfo_keeps fi s1) as (Hf & He & Ho & Hc & _).
  change (dramaticEventTriggered s1) with (dramaticEventTriggered g) in Hf.
  rewrite Hflag in Hf. rewrite Hf. cbn [negb]. auto.
Qed.

(** The star update runs first in every frame and does not read the mode:
    both modes end the frame the same way and with the same pool. *)
Lemma animate_stars_mode_independent (fi : FrameInput) (m : bool) (s : State) :
  snd (animate fi (set_mode m s)) = snd (animate fi s)
  /\ shootingStars (fst (animate fi (set_mode m s)))
     = shootingStars (fst (animate fi s)).
Proof.
  unfold animate. cbn [shootingStars set_mode].
  destruct (ShootingStars.update _ _ _ _ _) as [stars [|e]]; cbn [fst snd].
  - split; [reflexivity|]. rewrite !cameraStep_keeps_stars.
    change (set_shootingStars stars (set_mode m s))
      with (set_mode m (set_shootingStars stars s)).
    now rewrite beforeCamera_set_mode.
  - split; reflexivity.
Qed.

(** When the spawner's 40% test succeeds with room in the pool, the frame
    ends in the exception of [createNewShootingStar]: the shockwaves, the
    event and the camera are left as the frame found them. *)
Lemma animate_aborts_on_spawn (fi : FrameInput) (s : State) :
  (length (ShootingStars.activeShootingStars (shootingStars s))
   < ShootingStars.activeMax)%nat ->
  (3000 < starsNow fi - ShootingStars.lastCheck (shootingStars s))%Z ->
  spawnRoll fi < 0.4 ->
  snd (animate fi s) = Throw TypeError
  /\ dramaticEvent (fst (animate fi s)) = dramaticEvent s
  /\ updateableObjects (fst (animate fi s)) = updateableObjects s
  /\ sceneChildren (fst (animate fi s)) = sceneChildren s
  /\ camera (fst (animate fi s)) = camera s.
Proof.
  intros Hroom Hdue Hroll. unfold animate, ShootingStars.update.
  destruct (ShootingStarsFacts.updateShootingStars_spec (delta fi)
              (shootingStars s)) as (_ & _ & _ & Hlc).
  pose proof (ShootingStarsFacts.length_updateShootingStars (delta fi)
                (shootingStars s)) as Hlen.
  rewrite Hlc.
  destruct (Z.ltb_spec 3000
              (starsNow fi - ShootingStars.lastCheck (shootingStars s)));
    [|lia].
  destruct (Qlt_le_dec (spawnRoll fi) 0.4) as [_|Hc]; [|lra].
  rewrite ShootingStarsFacts.createNewShootingStar_throws
    by (cbn [ShootingStars.activeShootingStars]; lia).
  repeat split.
Qed.

End ModeSwitch.

(** C9 on a session with a supernova in flight.  After the frame at 61 s
    the event record reads scale 1, shader time 0, intensity 1.  The frame
    at 62 s in which the star spawner's test succeeds ends in a TypeError in
    autopilot and in manual mode alike, and leaves the event record and the
    shockwave exactly as they were: that frame advances neither.  The same
    frame with the test failing advances the event to shader time 62. *)
Theorem aborted_frame_skips_animations :
  let s1 := fst (animate (H := chordHost) frame61 (startJourney session0)) in
  let m1 := toggleControlMode s1 in
  let advanced (s : State) := option_map supernova_time (dramaticEvent s) in
  dramaticEvent s1 = Some (mkEvent 0 1 0 1 61 25)
  /\ isAutoPilot s1 = true /\ isAutoPilot m1 = false
  /\ (snd (animate (H := chordHost) frame62spawn s1) = Throw TypeError
      /\ dramaticEvent (fst (animate (H := chordHost) frame62spawn s1))
         = dramaticEvent s1
      /\ updateableObjects (fst (animate (H := chordHost) frame62spawn s1))
         = updateableObjects s1)
  /\ (snd (animate (H := chordHost) frame62spawn m1) = Throw TypeError
      /\ dramaticEvent (fst (animate (H := chordHost) frame62spawn m1))
         = dramaticEvent s1
      /\ updateableObjects (fst (animate (H := chordHost) frame62spawn m1))
         = updateableObjects s1)
  /\ advanced (fst (animate (H := chordHost) frame62 s1)) = Some 62
  /\ advanced (fst (animate (H := chordHost) frame62 m1)) = Some 62.
Proof. vm_compute. intuition reflexivity. Qed.

End AnimateFacts.

(** ** More on the camera path and the autopilot camera *)

Module CameraPathMore.
Import CameraPath.

Lemma fromPoints_snoc (pts : list Vector3) (point : Vector3) :
  fromPoints (pts ++ [point]) = addPoint point (fromPoints pts).
Proof. unfold fromPoints. now rewrite fold_left_app. Qed.

Lemma curve_addPoint (point : Vector3) (p : t) :
  curve (addPoint point p) = None
  <-> (length (points (addPoint point p)) < 2)%nat.
Proof.
  unfold addPoint, _updateCurve; simpl.
  destruct (Nat.ltb_spec (length (points p ++ [point])) 2); simpl;
    split; intros; try reflexivity; try assumption; try discriminate; lia.
Qed.

(** X1.  Paths are built by [addPoint] alone.  Adding a point appends it to
    the control points, in order, and rebuilds the curve so that a curve
    exists exactly when the path has at least two points, whatever the
    path object held before; the path built from a list of points holds
    exactly those points. *)
Theorem addPoint_keeps_curve_in_step (pts : list Vector3) (point : Vector3)
    (p : t) :
  points (addPoint point p) = points p ++ [point]
  /\ (curve (addPoint point p) = None
      <-> (length (points (addPoint point p)) < 2)%nat)
  /\ points (fromPoints pts) = pts
  /\ (curve (fromPoints pts) = None <-> (length pts < 2)%nat).
Proof.
  split; [|split; [apply curve_addPoint|split]].
  - unfold addPoint, _updateCurve; simpl.
    now destruct (length (points p ++ [point]) <? 2)%nat.
  - apply CameraPathFacts.points_fromPoints.
  - destruct pts as [|a pts0].
    { split; intros _; [simpl; lia | reflexivity]. }
    destruct (exists_last (l := a :: pts0)) as [front [x E]]; [discriminate|].
    rewrite E, fromPoints_snoc, curve_addPoint.
    now rewrite <- fromPoints_snoc, CameraPathFacts.points_fromPoints.
Qed.

End CameraPathMore.

(** ** The autopilot camera *)

Module AutopilotFacts.

Lemma cyclePosition_range (n : Z) :
  (0 <= n)%Z ->
  0 <= cyclePosition n 300000 /\ cyclePosition n 300000 < 1.
Proof.
  intros Hn. unfold cyclePosition.
  pose proof (Z.rem_bound_pos n 300000 Hn ltac:(lia)) as [H0 H1].
  assert (E : inject_Z (Z.rem n 300000) / inject_Z 300000
              == inject_Z (Z.rem n 300000) * (1 # 300000)) by field.
  rewrite E. unfold inject_Z, Qle, Qlt, Qmult; simpl. lia.
Qed.

(** The 5-minute cycle: a whole number of periods later the position on the
    path is the same. *)
Lemma cyclePosition_periodic (n k : Z) :
  (0 <= n)%Z -> (0 <= k)%Z ->
  cyclePosition (n + k * 300000) 300000 = cyclePosition n 300000.
Proof.
  intros Hn Hk. unfold cyclePosition. f_equal. f_equal.
  rewrite !Z.rem_mod_nonneg by lia. apply Z.mod_add. lia.
Qed.

(** [t % 1] for a parameter that has run at most once around. *)
Lemma js_rem1_once (t : Q) :
  0 <= t -> t < 2 ->
  (t < 1 /\ js_rem1 t == t) \/ (1 <= t /\ js_rem1 t == t - 1).
Proof.
  destruct t as [n d]. unfold Qle, Qlt, js_rem1, Qeq, Qminus, Qplus, Qopp.
  simpl. intros H0 H2.
  destruct (Z_lt_le_dec n (Zpos d)) as [Hlt|Hge].
  - left. rewrite Z.rem_small by lia. split; lia.
  - right. split; [lia|].
    assert (Hr : Z.rem n (Zpos d) = (n - Zpos d)%Z).
    { symmetry. apply (Z.rem_unique n (Zpos d) 1); lia. }
    rewrite Hr. lia.
Qed.

Section WithHost.
Context `{Host}.

Lemma triggerDramaticEvent_camera (fi : FrameInput) (s : State) :
  camera (triggerDramaticEvent fi s) = camera s
  /\ cameraPath (triggerDramaticEvent fi s) = cameraPath s.
Proof.
  unfold triggerDramaticEvent. destruct (dramaticEventTriggered s);
    split; reflexivity.
Qed.

Lemma checkLocationInfo_camera (fi : FrameInput) (s : State) :
  camera (checkLocationInfo fi s) = camera s
  /\ cameraPath (checkLocationInfo fi s) = cameraPath s.
Proof.
  unfold checkLocationInfo.
  destruct (negb (journeyStarted s)); [split; reflexivity|].
  destruct (locationNow fi - lastLocationChangeTime s <? 10000)%Z;
    [split; reflexivity|].
  destruct (findLocation _ _ _ _); split; reflexivity.
Qed.

(** Where the autopilot branch leaves the camera. *)
Lemma autoPilotStep_camera (fi : FrameInput) (s : State) :
  camera (autoPilotStep fi s)
  = mkCamera
      (CameraPath.getPointAt (cameraPath s) (pathPosition fi))
      (CameraPath.getPointAt (cameraPath s)
         (js_rem1 (pathPosition fi + lookAheadAmount fi)))
      (Math_sin (elapsedTime fi * 0.05) * 0.001).
Proof.
  unfold autoPilotStep. fold (pathPosition fi). fold (lookAheadAmount fi).
  set (s1 := set_camera _ s).
  destruct (checkLocationInfo_camera fi s1) as [Hc _].
  destruct (negb (dramaticEventTriggered _)); [|exact Hc].
  destruct (Qlt_le_dec 60 (elapsedTime fi)); [|exact Hc].
  destruct (Qlt_le_dec (triggerRoll fi) 0.001); [|exact Hc].
  destruct (triggerDramaticEvent_camera fi (checkLocationInfo fi s1)) as [-> _].
  exact Hc.
Qed.

(** X2.  With the journey started and the autopilot on, a frame puts the
    camera on the path at a parameter [t] in [0, 1), makes it look at the
    path at a parameter in [0, 1) that lies between 0.005 and 0.015 ahead of
    [t], wrapping past 1, and rolls it by at most 0.001, provided
    [Date.now()] is not negative and [Math.sin] stays within [-1, 1]. *)
Theorem autopilot_camera_on_path (fi : FrameInput) (s : State) :
  journeyStarted s = true -> isAutoPilot s = true ->
  (0 <= cameraNow fi)%Z ->
  (forall x : Q, -1 <= Math_sin x /\ Math_sin x <= 1) ->
  let c := camera (cameraStep fi s) in
  exists t ahead t' : Q,
    (0 <= t /\ t < 1) /\ (0.005 <= ahead /\ ahead <= 0.015)
    /\ (0 <= t' /\ t' < 1) /\ (t' == t + ahead \/ t' == t + ahead - 1)
    /\ cam_position c = CameraPath.getPointAt (cameraPath s) t
    /\ cam_lookAt c = CameraPath.getPointAt (cameraPath s) t'
    /\ -0.001 <= cam_rollZ c /\ cam_rollZ c <= 0.001.
Proof.
  intros Hj Ha Hnow Hsin c. unfold c, cameraStep. rewrite Hj, Ha. simpl.
  rewrite autoPilotStep_camera. simpl.
  exists (pathPosition fi), (lookAheadAmount fi),
         (js_rem1 (pathPosition fi + lookAheadAmount fi)).
  pose proof (cyclePosition_range (cameraNow fi) Hnow) as [Ht0 Ht1].
  fold (pathPosition fi) in Ht0, Ht1.
  assert (Hla : 0.005 <= lookAheadAmount fi /\ lookAheadAmount fi <= 0.015).
  { unfold lookAheadAmount.
    destruct (Hsin (elapsedTime fi * 0.2)) as [Hlo Hhi]. split; lra. }
  destruct Hla as [Hla0 Hla1].
  destruct (Hsin (elapsedTime fi * 0.05)) as [Hr0 Hr1].
  destruct (js_rem1_once (pathPosition fi + lookAheadAmount fi))
    as [[Hlt E]|[Hge E]]; try lra.
  - split; [split; assumption|]. split; [split; assumption|].
    split; [rewrite E; split; lra|]. split; [left; exact E|].
    split; [reflexivity|]. split; [reflexivity|]. split; lra.
  - split; [split; assumption|]. split; [split; assumption|].
    split; [rewrite E; split; lra|]. split; [right; exact E|].
    split; [reflexivity|]. split; [reflexivity|]. split; lra.
Qed.

(** X3.  The journey loops every five minutes: with the journey started
    and the autopilot on, two frames whose [Date.now()] differ by a whole
    number of 300000 ms periods put the camera at the same point of the
    path. *)
Theorem autopilot_position_periodic (fi fi' : FrameInput) (k : Z)
    (s : State) :
  journeyStarted s = true -> isAutoPilot s = true ->
  (0 <= cameraNow fi)%Z -> (0 <= k)%Z ->
  cameraNow fi' = (cameraNow fi + k * 300000)%Z ->
  cam_position (camera (cameraStep fi' s))
  = cam_position (camera (cameraStep fi s)).
Proof.
  intros Hj Ha Hnow Hk Hlater. unfold cameraStep. rewrite Hj, Ha. simpl.
  rewrite !autoPilotStep_camera. simpl. unfold pathPosition.
  now rewrite Hlater, cyclePosition_periodic.
Qed.

End WithHost.

Lemma autopilot_camera_on_path_witness :
  let s := startJourney session0 in
  journeyStarted s = true /\ isAutoPilot s = true
  /\ (0 <= cameraNow frame61)%Z
  /\ (forall x : Q, -1 <= Math_sin (Host := chordHost) x
                    /\ Math_sin (Host := chordHost) x <= 1)
  /\ exists t ahead t' : Q,
       (0 <= t /\ t < 1) /\ (0.005 <= ahead /\ ahead <= 0.015)
       /\ (0 <= t' /\ t' < 1) /\ (t' == t + ahead \/ t' == t + ahead - 1)
       /\ cam_position (camera (cameraStep (H := chordHost) frame61 s))
          = CameraPath.getPointAt (H := chordHost) (cameraPath s) t
       /\ cam_lookAt (camera (cameraStep (H := chordHost) frame61 s))
          = CameraPath.getPointAt (H := chordHost) (cameraPath s) t'
       /\ -0.001 <= cam_rollZ (camera (cameraStep (H := chordHost) frame61 s))
       /\ cam_rollZ (camera (cameraStep (H := chordHost) frame61 s)) <= 0.001.
Proof.
  intros s.
  assert (Hj : journeyStarted s = true) by reflexivity.
  assert (Ha : isAutoPilot s = true) by reflexivity.
  assert (Hnow : (0 <= cameraNow frame61)%Z) by (simpl; lia).
  assert (Hsin : forall x : Q, -1 <= Math_sin (Host := chordHost) x
                               /\ Math_sin (Host := chordHost) x <= 1).
  { intros x. simpl. split; discriminate. }
  split; [exact Hj|]. split; [exact Ha|]. split; [exact Hnow|].
  split; [exact Hsin|].
  exact (autopilot_camera_on_path (H := chordHost) frame61 s Hj Ha Hnow Hsin).
Defined.

Lemma autopilot_position_periodic_witness :
  let s := startJourney session0 in
  let later := frameAt 361 (1700000000000 + 1 * 300000) (1 # 2) (1 # 2) in
  journeyStarted s = true /\ isAutoPilot s = true
  /\ (0 <= cameraNow frame61)%Z /\ (0 <= 1)%Z
  /\ cameraNow later = (cameraNow frame61 + 1 * 300000)%Z
  /\ cam_position (camera (cameraStep (H := chordHost) later s))
     = cam_position (camera (cameraStep (H := chordHost) frame61 s)).
Proof.
  intros s later.
  assert (Hj : journeyStarted s = true) by reflexivity.
  assert (Ha : isAutoPilot s = true) by reflexivity.
  assert (Hnow : (0 <= cameraNow frame61)%Z) by (simpl; lia).
  assert (Hk : (0 <= 1)%Z) by lia.
  assert (Hl : cameraNow later = (cameraNow frame61 + 1 * 300000)%Z)
    by reflexivity.
  split; [exact Hj|]. split; [exact Ha|]. split; [exact Hnow|].
  split; [exact Hk|]. split; [exact Hl|].
  exact (autopilot_position_periodic (H := chordHost) frame61 later 1 s
           Hj Ha Hnow Hk Hl).
Defined.

End AutopilotFacts.

(** ** More on the shooting-star pool *)

Module ShootingStarsMore.
Import ShootingStars.

Lemma updateAt_positions (dt : Q) (front back : list ShootingStar)
    (x : ShootingStar) (s : t) :
  activeShootingStars s = front ++ x :: back ->
  positions (updateAt dt (length front) s)
  = writePosition (advance dt x) (positions s).
Proof.
  intros Hact. unfold updateAt.
  rewrite Hact, list_lookup_middle by reflexivity.
  destruct (Qlt_le_dec (progress (advance dt x)) 1); reflexivity.
Qed.

Lemma updateLoop_positions (dt : Q) (front : list ShootingStar) :
  forall (back : list ShootingStar) (s : t),
    activeShootingStars s = front ++ back ->
    positions (updateLoop dt (length front) s)
    = foldr writePosition (positions s) (map (advance dt) front).
Proof.
  induction front as [|x front IH] using rev_ind; intros back s Hact.
  - reflexivity.
  - rewrite length_app, Nat.add_1_r. cbn [updateLoop].
    rewrite <- app_assoc in Hact. simpl in Hact.
    destruct (ShootingStarsFacts.updateAt_last dt front back x s Hact)
      as (Ha & _).
    rewrite (IH _ _ Ha), (updateAt_positions dt front back x s Hact).
    now rewrite map_app, foldr_app.
Qed.

Lemma updateShootingStars_positions (dt : Q) (s : t) :
  positions (updateShootingStars dt s)
  = foldr writePosition (positions s)
          (map (advance dt) (activeShootingStars s)).
Proof.
  unfold updateShootingStars.
  apply (updateLoop_positions dt (activeShootingStars s) []).
  now rewrite app_nil_r.
Qed.

Lemma length_writePosition (x : ShootingStar) (p : list Q) :
  length (writePosition x p) = length p.
Proof. unfold writePosition. now rewrite !length_insert. Qed.

Lemma length_foldr_writePosition (l : list ShootingStar) (p : list Q) :
  length (foldr writePosition p l) = length p.
Proof.
  induction l as [|x l IH]; simpl; [reflexivity|].
  now rewrite length_writePosition.
Qed.

Lemma writePosition_other (x : ShootingStar) (p : list Q) (i k : nat) :
  index x <> i -> (k < 3)%nat ->
  writePosition x p !! (i * 3 + k)%nat = p !! (i * 3 + k)%nat.
Proof.
  intros Hne Hk. unfold writePosition.
  rewrite !list_lookup_insert_ne by lia. reflexivity.
Qed.

Lemma writePosition_self (x : ShootingStar) (p : list Q) :
  (index x * 3 + 2 < length p)%nat ->
  let pos := lerpVectors (startPosition x) (endPosition x) (progress x) in
  writePosition x p !! (index x * 3)%nat = Some (vx pos)
  /\ writePosition x p !! (index x * 3 + 1)%nat = Some (vy pos)
  /\ writePosition x p !! (index x * 3 + 2)%nat = Some (vz pos).
Proof.
  intros Hlen pos. unfold writePosition. fold pos. split; [|split].
  - rewrite !list_lookup_insert_ne by lia.
    apply list_lookup_insert_eq. lia.
  - rewrite list_lookup_insert_ne by lia.
    apply list_lookup_insert_eq. rewrite length_insert. lia.
  - apply list_lookup_insert_eq. rewrite !length_insert. lia.
Qed.

Lemma foldr_writePosition_lookup (l : list ShootingStar) (p : list Q)
    (star : ShootingStar) :
  List.NoDup (map index l) -> In star l ->
  (index star * 3 + 2 < length p)%nat ->
  let pos :=
    lerpVectors (startPosition star) (endPosition star) (progress star) in
  foldr writePosition p l !! (index star * 3)%nat = Some (vx pos)
  /\ foldr writePosition p l !! (index star * 3 + 1)%nat = Some (vy pos)
  /\ foldr writePosition p l !! (index star * 3 + 2)%nat = Some (vz pos).
Proof.
  induction l as [|x l IH]; intros Hnd Hin Hlen pos; [destruct Hin|].
  simpl in Hnd. apply List.NoDup_cons_iff in Hnd as [Hx Hnd].
  simpl. destruct Hin as [->|Hin].
  - apply writePosition_self. now rewrite length_foldr_writePosition.
  - assert (Hne : index x <> index star).
    { intros E. apply Hx. rewrite E. now apply in_map. }
    destruct (IH Hnd Hin Hlen) as (H0 & H1 & H2).
    pose proof (writePosition_other x (foldr writePosition p l)
                  (index star) 0 Hne ltac:(lia)) as E0.
    rewrite Nat.add_0_r in E0.
    rewrite E0, !writePosition_other by (assumption || lia).
    auto.
Qed.

(** X4.  The backwards splice loop of [updateShootingStars] keeps exactly
    the stars whose advanced progress is below 1, in their order, each with
    its progress advanced; it never adds a star, never resizes an array and
    leaves the size array and the time of the last spawn check alone. *)
Theorem update_keeps_unfinished_stars (dt : Q) (s : t) :
  let s' := updateShootingStars dt s in
  activeShootingStars s'
    = List.filter alive (map (advance dt) (activeShootingStars s))
  /\ (length (activeShootingStars s') <= length (activeShootingStars s))%nat
  /\ length (alphas s') = length (alphas s)
  /\ length (positions s') = length (positions s)
  /\ sizes s' = sizes s
  /\ lastCheck s' = lastCheck s.
Proof.
  intros s'.
  destruct (ShootingStarsFacts.updateShootingStars_spec dt s)
    as (Ha & Hal & Hs & Hl).
  fold s' in Ha, Hal, Hs, Hl.
  split; [exact Ha|]. split.
  { rewrite Ha. etransitivity; [apply List.filter_length_le|].
    now rewrite length_map. }
  split; [rewrite Hal; apply ShootingStarsFacts.length_foldr_writeAlpha|].
  split; [|split; assumption].
  unfold s'. rewrite updateShootingStars_positions.
  apply length_foldr_writePosition.
Qed.

Lemma lerpVectors_ends (a b : Vector3) :
  (vx (lerpVectors a b 0) == vx a /\ vy (lerpVectors a b 0) == vy a
   /\ vz (lerpVectors a b 0) == vz a)
  /\ (vx (lerpVectors a b 1) == vx b /\ vy (lerpVectors a b 1) == vy b
      /\ vz (lerpVectors a b 1) == vz b).
Proof. unfold lerpVectors; simpl. repeat (split; try ring). Qed.

(** X5.  When the active stars occupy distinct slots of the position
    array, an update leaves in the three position entries of every active
    star the point of the segment from its start to its end at its advanced
    progress; that point is the start at progress 0 and the end at
    progress 1. *)
Theorem star_position_interpolated (dt : Q) (s : t) (star : ShootingStar) :
  In star (activeShootingStars s) ->
  List.NoDup (map index (activeShootingStars s)) ->
  (index star * 3 + 2 < length (positions s))%nat ->
  let p := progress star + dt * speed star * 0.1 in
  let pos := lerpVectors (startPosition star) (endPosition star) p in
  let ps := positions (updateShootingStars dt s) in
  (ps !! (index star * 3)%nat = Some (vx pos)
   /\ ps !! (index star * 3 + 1)%nat = Some (vy pos)
   /\ ps !! (index star * 3 + 2)%nat = Some (vz pos))
  /\ (vx (lerpVectors (startPosition star) (endPosition star) 0)
        == vx (startPosition star)
      /\ vy (lerpVectors (startPosition star) (endPosition star) 0)
        == vy (startPosition star)
      /\ vz (lerpVectors (startPosition star) (endPosition star) 0)
        == vz (startPosition star))
  /\ (vx (lerpVectors (startPosition star) (endPosition star) 1)
        == vx (endPosition star)
      /\ vy (lerpVectors (startPosition star) (endPosition star) 1)
        == vy (endPosition star)
      /\ vz (lerpVectors (startPosition star) (endPosition star) 1)
        == vz (endPosition star)).
Proof.
  intros Hin Hnd Hlen p pos ps. split; [|apply lerpVectors_ends].
  unfold ps. rewrite updateShootingStars_positions.
  apply (foldr_writePosition_lookup _ _ (advance dt star)).
  - now rewrite ShootingStarsFacts.map_index_advance.
  - now apply in_map.
  - exact Hlen.
Qed.

Lemma star_position_interpolated_witness :
  let s := poolWith [starAt 0 (1 # 10); starAt 1 (1 # 2)] in
  let star := starAt 1 (1 # 2) in
  In star (activeShootingStars s)
  /\ List.NoDup (map index (activeShootingStars s))
  /\ (index star * 3 + 2 < length (positions s))%nat
  /\ positions (updateShootingStars 1 s) !! 3%nat
     = Some (vx (lerpVectors (startPosition star) (endPosition star)
                             ((1 # 2) + 1 * 1 * 0.1))).
Proof.
  intros s star.
  assert (Hin : In star (activeShootingStars s)) by (right; left; reflexivity).
  assert (Hnd : List.NoDup (map index (activeShootingStars s))).
  { simpl. repeat constructor; simpl; intuition lia. }
  assert (Hlen : (index star * 3 + 2 < length (positions s))%nat)
    by (simpl; lia).
  split; [exact Hin|]. split; [exact Hnd|]. split; [exact Hlen|].
  exact (proj1 (proj1 (star_position_interpolated 1 s star Hin Hnd Hlen))).
Defined.

(** *** Lifetime of a star *)






(** *** The spawn check *)

Section SpawnCheck.
Context `{Host}.

Lemma update_outcome (dt : Q) (now : Z) (roll : Q) (d : SpawnDraws) (s : t) :
  let s1 := updateShootingStars dt s in
  update dt now roll d s
  = if (3000 <? now - lastCheck s)%Z then
      (mk (positions s1) (sizes s1) (alphas s1) (activeShootingStars s1) now,
       if Qlt_le_dec roll 0.4
       then if (activeMax <=? length (activeShootingStars s1))%nat
            then Normal else Throw TypeError
       else Normal)
    else (s1, Normal).
Proof.
  intros s1. unfold update. fold s1.
  destruct (ShootingStarsFacts.updateShootingStars_spec dt s)
    as (_ & _ & _ & Hl).
  fold s1 in Hl. rewrite Hl.
  destruct (3000 <? now - lastCheck s)%Z; [|reflexivity].
  destruct (Qlt_le_dec roll 0.4); [|reflexivity].
  unfold createNewShootingStar, createNewShootingStarOn.
  cbn [activeShootingStars].
  destruct (activeMax <=? length (activeShootingStars s1))%nat; reflexivity.
Qed.

(** X7.  [update] ends in a TypeError exactly when more than 3000 ms have
    passed since the last spawn check, the roll of the 40% test is below
    0.4 and fewer than 3 stars are left active; whether it throws or
    returns, the stars, positions and alphas are those the star update
    left (no star is added), and the time of the last check is the current
    time if the check was due and unchanged otherwise. *)
Theorem update_throws_iff (dt : Q) (now : Z) (roll : Q) (d : SpawnDraws)
    (s : t) :
  let s1 := updateShootingStars dt s in
  let r := update dt now roll d s in
  (snd r = Throw TypeError
   <-> (3000 < now - lastCheck s)%Z /\ roll < 0.4
       /\ (length (activeShootingStars s1) < 3)%nat)
  /\ activeShootingStars (fst r) = activeShootingStars s1
  /\ alphas (fst r) = alphas s1
  /\ positions (fst r) = positions s1
  /\ lastCheck (fst r)
     = if (3000 <? now - lastCheck s)%Z then now else lastCheck s.
Proof.
  intros s1 r. unfold r. rewrite update_outcome. fold s1.
  destruct (ShootingStarsFacts.updateShootingStars_spec dt s)
    as (_ & _ & _ & Hl).
  fold s1 in Hl.
  destruct (Z.ltb_spec 3000 (now - lastCheck s)) as [Hdue|Hnot]; cbn [fst snd].
  - split; [|repeat split].
    destruct (Qlt_le_dec roll 0.4) as [Hr|Hr];
      [destruct (Nat.leb_spec activeMax (length (activeShootingStars s1)))
         as [Hfull|Hroom]|].
    + split; [discriminate|]. unfold activeMax in Hfull. lia.
    + split; [intros _|reflexivity]. unfold activeMax in Hroom.
      split; [lia|]. split; [exact Hr|lia].
    + split; [discriminate|]. intros (_ & Hc & _). lra.
  - split; [|repeat split; assumption].
    split; [discriminate|]. lia.
Qed.

(** X8.  Spawn checks are at least three seconds apart: once a call of
    [update] at time [now] has made its check, a later call no more than
    3000 ms after [now] only advances the stars; it makes no check, draws
    nothing and cannot throw. *)
Theorem spawn_checks_three_seconds_apart (dt dt' : Q) (now now' : Z)
    (roll roll' : Q) (d d' : SpawnDraws) (s : t) :
  (3000 < now - lastCheck s)%Z ->
  (now' - now <= 3000)%Z ->
  let s1 := fst (update dt now roll d s) in
  lastCheck s1 = now
  /\ update dt' now' roll' d' s1 = (updateShootingStars dt' s1, Normal).
Proof.
  intros Hdue Hsoon s1.
  assert (Hl : lastCheck s1 = now).
  { unfold s1. rewrite update_outcome.
    destruct (Z.ltb_spec 3000 (now - lastCheck s)); [reflexivity|lia]. }
  split; [exact Hl|].
  rewrite update_outcome, Hl.
  destruct (Z.ltb_spec 3000 (now' - now)); [lia|reflexivity].
Qed.

End SpawnCheck.

Lemma spawn_checks_three_seconds_apart_witness :
  (3000 < 1700000000000 - lastCheck init)%Z
  /\ (1700000002000 - 1700000000000 <= 3000)%Z
  /\ update (H := chordHost) (1 # 60) 1700000002000 (1 # 10) someDraws
        (fst (update (H := chordHost) (1 # 60) 1700000000000 (1 # 2)
                someDraws init))
     = (updateShootingStars (1 # 60)
          (fst (update (H := chordHost) (1 # 60) 1700000000000 (1 # 2)
                  someDraws init)),
        Normal).
Proof.
  assert (Hdue : (3000 < 1700000000000 - lastCheck init)%Z) by (simpl; lia).
  assert (Hsoon : (1700000002000 - 1700000000000 <= 3000)%Z) by lia.
  split; [exact Hdue|]. split; [exact Hsoon|].
  exact (proj2 (spawn_checks_three_seconds_apart (H := chordHost)
                  (1 # 60) (1 # 60) 1700000000000 1700000002000
                  (1 # 2) (1 # 10) someDraws someDraws init Hdue Hsoon)).
Defined.

End ShootingStarsMore.

(** ** The starfield *)

Module StarfieldFacts.
Import Starfield.

Lemma randFloat_range (low high r : Q) :
  low <= high -> 0 <= r -> r <= 1 ->
  low <= MathUtils.randFloat low high r
  /\ MathUtils.randFloat low high r <= high.
Proof. intros Hlh H0 H1. unfold MathUtils.randFloat. split; nra. Qed.

(** X10.  With every draw of [Math.random()] in [0, 1], the colour
    channels of a generated star lie in [0, 1] and its size in [1, 5]; a
    star type above 0.9 gives a red or yellow star (red at least 0.8, blue
    at most 0.3), a type above 0.5 a white star (every channel at least
    0.8), any other type a blue star (blue at least 0.9, red at most
    0.8). *)
Theorem star_colours_in_range (d : StarDraws) :
  (0 <= d_red d /\ d_red d <= 1) ->
  (0 <= d_green d /\ d_green d <= 1) ->
  (0 <= d_blue d /\ d_blue d <= 1) ->
  (0 <= d_size d /\ d_size d <= 1) ->
  exists r g b : Q,
    starColor d = [r; g; b]
    /\ (0 <= r /\ r <= 1) /\ (0 <= g /\ g <= 1) /\ (0 <= b /\ b <= 1)
    /\ (0.9 < d_starType d -> 0.8 <= r /\ b <= 0.3)
    /\ (0.5 < d_starType d -> d_starType d <= 0.9 ->
        0.8 <= r /\ 0.8 <= g /\ 0.8 <= b)
    /\ (d_starType d <= 0.5 -> 0.9 <= b /\ r <= 0.8)
    /\ 1 <= starSize d /\ starSize d <= 5.
Proof.
  intros [Hr0 Hr1] [Hg0 Hg1] [Hb0 Hb1] [Hs0 Hs1].
  pose proof (randFloat_range 1 5 (d_size d) ltac:(lra) Hs0 Hs1) as [Hz0 Hz1].
  unfold starColor.
  destruct (Qlt_le_dec 0.9 (d_starType d)) as [H9|H9];
    [|destruct (Qlt_le_dec 0.5 (d_starType d)) as [H5|H5]].
  - destruct (randFloat_range 0.8 1.0 (d_red d)) as [A0 A1]; try lra.
    destruct (randFloat_range 0.5 0.8 (d_green d)) as [B0 B1]; try lra.
    destruct (randFloat_range 0.0 0.3 (d_blue d)) as [C0 C1]; try lra.
    eexists _, _, _. split; [reflexivity|].
    split; [split; lra|]. split; [split; lra|]. split; [split; lra|].
    split; [intros _; split; lra|]. split; [intros; lra|].
    split; [intros; lra|]. split; assumption.
  - destruct (randFloat_range 0.8 1.0 (d_red d)) as [A0 A1]; try lra.
    destruct (randFloat_range 0.8 1.0 (d_green d)) as [B0 B1]; try lra.
    destruct (randFloat_range 0.8 1.0 (d_blue d)) as [C0 C1]; try lra.
    eexists _, _, _. split; [reflexivity|].
    split; [split; lra|]. split; [split; lra|]. split; [split; lra|].
    split; [intros; lra|]. split; [intros; repeat split; lra|].
    split; [intros; lra|]. split; assumption.
  - destruct (randFloat_range 0.6 0.8 (d_red d)) as [A0 A1]; try lra.
    destruct (randFloat_range 0.7 0.9 (d_green d)) as [B0 B1]; try lra.
    destruct (randFloat_range 0.9 1.0 (d_blue d)) as [C0 C1]; try lra.
    eexists _, _, _. split; [reflexivity|].
    split; [split; lra|]. split; [split; lra|]. split; [split; lra|].
    split; [intros; lra|]. split; [intros; lra|].
    split; [intros; split; lra|]. split; assumption.
Qed.

Lemma star_colours_in_range_witness :
  let d := mkStarDraws (19 # 20) (1 # 2) (1 # 2) (1 # 2) (1 # 2) in
  (0 <= d_red d /\ d_red d <= 1)
  /\ (0 <= d_green d /\ d_green d <= 1)
  /\ (0 <= d_blue d /\ d_blue d <= 1)
  /\ (0 <= d_size d /\ d_size d <= 1)
  /\ exists r g b : Q,
       starColor d = [r; g; b]
       /\ (0 <= r /\ r <= 1) /\ (0 <= g /\ g <= 1) /\ (0 <= b /\ b <= 1)
       /\ (0.9 < d_starType d -> 0.8 <= r /\ b <= 0.3)
       /\ (0.5 < d_starType d -> d_starType d <= 0.9 ->
           0.8 <= r /\ 0.8 <= g /\ 0.8 <= b)
       /\ (d_starType d <= 0.5 -> 0.9 <= b /\ r <= 0.8)
       /\ 1 <= starSize d /\ starSize d <= 5.
Proof.
  intros d.
  assert (Hr : 0 <= d_red d /\ d_red d <= 1) by (split; discriminate).
  assert (Hg : 0 <= d_green d /\ d_green d <= 1) by (split; discriminate).
  assert (Hb : 0 <= d_blue d /\ d_blue d <= 1) by (split; discriminate).
  assert (Hs : 0 <= d_size d /\ d_size d <= 1) by (split; discriminate).
  split; [exact Hr|]. split; [exact Hg|]. split; [exact Hb|].
  split; [exact Hs|].
  exact (star_colours_in_range d Hr Hg Hb Hs).
Defined.

Section WithHost.
Context `{Host}.

Lemma twinkleFrom_spec (time : Q) (data : list Twinkle) :
  forall (pre olds post : list Q),
    length olds = length data ->
    twinkleFrom time (length pre) data (pre ++ olds ++ post)
    = pre ++ map (fun u => originalSize u * twinkle time u) data ++ post.
Proof.
  induction data as [|u data IH]; intros pre olds post Hlen.
  - destruct olds; [reflexivity|discriminate].
  - destruct olds as [|o olds]; [discriminate|]. simpl in Hlen.
    cbn [twinkleFrom map].
    rewrite insert_app_r_alt, Nat.sub_diag by lia. cbn [app].
    change (<[0%nat := originalSize u * twinkle time u]> (o :: olds ++ post))
      with (originalSize u * twinkle time u :: olds ++ post).
    specialize (IH (pre ++ [originalSize u * twinkle time u]) olds post
                   ltac:(lia)).
    rewrite length_app, Nat.add_1_r in IH.
    rewrite <- !app_assoc in IH. exact IH.
Qed.

Lemma twinkle_range (time : Q) (u : Twinkle) :
  (forall x : Q, -1 <= Math_sin x /\ Math_sin x <= 1) ->
  0.3 <= twinkle time u /\ twinkle time u <= 1.
Proof.
  intros Hsin. unfold twinkle.
  set (v := Math_sin (time * randomSpeed u + randomOffset u)).
  destruct (Hsin (time * randomSpeed u + randomOffset u)) as [Hlo Hhi].
  fold v in Hlo, Hhi.
  pose proof (Qabs_nonneg v) as Hn.
  assert (Ha : Qabs v <= 1) by (apply Qabs_Qle_condition; split; assumption).
  split; lra.
Qed.

(** X9.  Twinkling never drifts.  On a size array with one entry per
    star, [onBeforeRender] replaces every entry by the star's original size
    times its twinkle factor, whatever the array held before; with
    [Math.sin] within [-1, 1] the factor lies in [0.3, 1], so a star of
    non-negative original size is drawn between 30% and 100% of it. *)
Theorem twinkle_stays_within_original (time : Q) (data : list Twinkle)
    (sizesArray : list Q) :
  length sizesArray = length data ->
  (forall x : Q, -1 <= Math_sin x /\ Math_sin x <= 1) ->
  onBeforeRender time data sizesArray
    = map (fun u => originalSize u * twinkle time u) data
  /\ forall (i : nat) (u : Twinkle),
       data !! i = Some u -> 0 <= originalSize u ->
       exists v, onBeforeRender time data sizesArray !! i = Some v
                 /\ 0.3 * originalSize u <= v /\ v <= originalSize u.
Proof.
  intros Hlen Hsin.
  assert (E : onBeforeRender time data sizesArray
              = map (fun u => originalSize u * twinkle time u) data).
  { unfold onBeforeRender.
    pose proof (twinkleFrom_spec time data [] sizesArray [] Hlen) as Hs.
    simpl in Hs. now rewrite !app_nil_r in Hs. }
  split; [exact E|].
  intros i u Hu Hpos. rewrite E, list_lookup_fmap, Hu. simpl.
  eexists. split; [reflexivity|].
  destruct (twinkle_range time u Hsin) as [Hlo Hhi]. split; nra.
Qed.

End WithHost.

Lemma twinkle_stays_within_original_witness :
  let data := [mkTwinkle 0 1 2; mkTwinkle 1 (1 # 2) 4] in
  length [7; 9] = length data
  /\ (forall x : Q, -1 <= Math_sin (Host := chordHost) x
                    /\ Math_sin (Host := chordHost) x <= 1)
  /\ onBeforeRender (H := chordHost) 5 data [7; 9]
     = map (fun u => originalSize u * twinkle (H := chordHost) 5 u) data.
Proof.
  intros data.
  assert (Hlen : length [7; 9] = length data) by reflexivity.
  assert (Hsin : forall x : Q, -1 <= Math_sin (Host := chordHost) x
                               /\ Math_sin (Host := chordHost) x <= 1).
  { intros x. simpl. split; discriminate. }
  split; [exact Hlen|]. split; [exact Hsin|].
  exact (proj1 (twinkle_stays_within_original (H := chordHost) 5 data [7; 9]
                  Hlen Hsin)).
Defined.

End StarfieldFacts.

(** ** Sessions: what every reachable state satisfies *)

Module SessionFacts.

Lemma eventObjects_app (a b : list SceneObject) :
  eventObjects (a ++ b) = eventObjects a ++ eventObjects b.
Proof. apply List.filter_app. Qed.

Lemma eventObjects_remove (o : SceneObject) (scene : list SceneObject) :
  eventObjects (scene_remove o scene) = scene_remove o (eventObjects scene).
Proof.
  unfold eventObjects, scene_remove.
  induction scene as [|x scene IH]; [reflexivity|]. simpl.
  destruct (negb (SceneObject_eqb o x)) eqn:Eo, (isEventObject x) eqn:Ex;
    simpl; rewrite ?Eo, ?Ex, ?IH; reflexivity.
Qed.

Lemma filter_filter_implied {A : Type} (p q : A -> bool) (l : list A) :
  (forall x, p x = true -> q x = true) ->
  List.filter p (List.filter q l) = List.filter p l.
Proof.
  intros Himp. induction l as [|x l IH]; [reflexivity|]. simpl.
  destruct (q x) eqn:Eq; simpl.
  - now rewrite IH.
  - destruct (p x) eqn:Ep; [|exact IH].
    rewrite (Himp x Ep) in Eq. discriminate.
Qed.

Lemma eventObjects_remove_shockwave (k : nat) (scene : list SceneObject) :
  eventObjects (scene_remove (ShockwaveParticles k) scene)
  = eventObjects scene.
Proof.
  unfold eventObjects, scene_remove. apply filter_filter_implied.
  intros [n|n|n|n]; simpl; congruence.
Qed.

Lemma eventObjects_static (scene : list SceneObject) :
  forallb isStatic scene = true -> eventObjects scene = [].
Proof.
  induction scene as [|x scene IH]; [reflexivity|]. simpl.
  intros Hs. apply andb_true_iff in Hs as [Hx Hs].
  destruct x; try discriminate. simpl. now apply IH.
Qed.

(** The invariant reads seven components of the state only. *)
Lemma SessionInv_ext (s s' : State) :
  dramaticEventTriggered s' = dramaticEventTriggered s ->
  dramaticEvent s' = dramaticEvent s ->
  sceneChildren s' = sceneChildren s ->
  controlsEnabled s' = controlsEnabled s ->
  isAutoPilot s' = isAutoPilot s ->
  updateableObjects s' = updateableObjects s ->
  eventSerial s' = eventSerial s ->
  ShootingStars.activeShootingStars (shootingStars s')
  = ShootingStars.activeShootingStars (shootingStars s) ->
  SessionInv s -> SessionInv s'.
Proof.
  unfold SessionInv, shockwaves.
  intros -> -> -> -> -> -> -> ->. exact (fun x => x).
Qed.

Section WithHost.
Context `{Host}.

Lemma SessionInv_updateObjects (elapsed : Q) (s : State) :
  SessionInv s -> SessionInv (updateObjects elapsed s).
Proof.
  intros Hinv. pose proof Hinv as (I1 & I2 & I3 & I4 & I5 & I6 & I7).
  unfold updateObjects. destruct (updateableObjects s) as [objs|] eqn:E;
    [|exact Hinv].
  unfold SessionInv, shockwaves in *. rewrite E in I5, I6.
  cbn [set_objects dramaticEventTriggered dramaticEvent sceneChildren
       controlsEnabled isAutoPilot updateableObjects eventSerial
       shootingStars].
  split; [exact I1|]. split; [exact I2|]. split.
  { rewrite <- I3. clear. induction objs as [|w objs IH]; [reflexivity|].
    simpl. destruct (shockwave_done elapsed w); [|exact IH].
    now rewrite eventObjects_remove_shockwave. }
  split; [exact I4|]. split.
  { rewrite <- I5, map_map. apply map_ext. intros w.
    unfold shockwave_update. now destruct (Qlt_le_dec _ 1). }
  split; [|exact I7].
  apply List.Forall_forall. intros w' Hw'.
  apply in_map_iff in Hw' as (w & <- & Hw).
  rewrite List.Forall_forall in I6. specialize (I6 w Hw).
  unfold shockwave_update. now destruct (Qlt_le_dec _ 1).
Qed.

Lemma SessionInv_updateDramaticEvent (elapsed : Q) (s : State) :
  SessionInv s -> SessionInv (updateDramaticEvent elapsed s).
Proof.
  intros Hinv. pose proof Hinv as (I1 & I2 & I3 & I4 & I5 & I6 & I7).
  unfold updateDramaticEvent.
  destruct (dramaticEventTriggered s) eqn:Ef; [|exact Hinv].
  destruct (dramaticEvent s) as [ev|] eqn:Ee; [|exact Hinv].
  unfold SessionInv, shockwaves in *.
  destruct (Qlt_le_dec _ 1) as [Hrun|Hend];
    cbn [set_event dramaticEventTriggered dramaticEvent sceneChildren
         controlsEnabled isAutoPilot updateableObjects eventSerial
         shootingStars].
  - split; [split; [discriminate|reflexivity]|]. split.
    { intros ev' [= <-].
      destruct (Qlt_le_dec _ 0.3); [|destruct (Qlt_le_dec _ 0.7)];
        cbn [duration]; now apply I2. }
    split; [|split; [exact I4|split; [exact I5|split; [exact I6|exact I7]]]].
    rewrite I3.
    destruct (Qlt_le_dec _ 0.3); [|destruct (Qlt_le_dec _ 0.7)]; reflexivity.
  - split; [split; [discriminate|congruence]|].
    split; [discriminate|].
    split; [|split; [exact I4|split; [exact I5|split; [exact I6|exact I7]]]].
    rewrite !eventObjects_remove, I3. unfold scene_remove. simpl.
    rewrite Nat.eqb_refl. simpl. rewrite Nat.eqb_refl. reflexivity.
Qed.

Lemma SessionInv_trigger (fi : FrameInput) (s : State) :
  SessionInv s -> SessionInv (triggerDramaticEvent fi s).
Proof.
  intros Hinv. pose proof Hinv as (I1 & I2 & I3 & I4 & I5 & I6 & I7).
  unfold triggerDramaticEvent.
  destruct (dramaticEventTriggered s) eqn:Ef; [exact Hinv|].
  assert (Ee : dramaticEvent s = None).
  { destruct (dramaticEvent s); [|reflexivity].
    destruct I1 as [_ I1]. specialize (I1 ltac:(discriminate)). congruence. }
  rewrite Ee in I3.
  unfold SessionInv, shockwaves, createShockwave in *.
  cbn [set_event set_objects dramaticEventTriggered dramaticEvent
       sceneChildren controlsEnabled isAutoPilot updateableObjects
       eventSerial shootingStars].
  split; [split; [discriminate|reflexivity]|].
  split; [intros ev [= <-]; reflexivity|].
  split.
  { unfold scene_add. rewrite !eventObjects_app, I3. reflexivity. }
  split; [exact I4|]. split.
  { rewrite map_app, I5. cbn [map sw_serial]. now rewrite seq_S. }
  split; [|exact I7].
  apply Forall_app. split; [exact I6|]. now constructor.
Qed.

Lemma SessionInv_checkLocationInfo (fi : FrameInput) (s : State) :
  SessionInv s -> SessionInv (checkLocationInfo fi s).
Proof.
  intros Hinv. unfold checkLocationInfo.
  destruct (negb (journeyStarted s)); [exact Hinv|].
  destruct (locationNow fi - lastLocationChangeTime s <? 10000)%Z;
    [exact Hinv|].
  destruct (findLocation _ _ _ _); [|exact Hinv].
  now apply (SessionInv_ext s).
Qed.

Lemma SessionInv_cameraStep (fi : FrameInput) (s : State) :
  SessionInv s -> SessionInv (cameraStep fi s).
Proof.
  intros Hinv. unfold cameraStep.
  destruct (journeyStarted s && isAutoPilot s).
  - unfold autoPilotStep. set (s1 := set_camera _ s).
    assert (H1 : SessionInv (checkLocationInfo fi s1)).
    { apply SessionInv_checkLocationInfo. now apply (SessionInv_ext s). }
    destruct (negb (dramaticEventTriggered _)); [|exact H1].
    destruct (Qlt_le_dec 60 (elapsedTime fi)); [|exact H1].
    destruct (Qlt_le_dec (triggerRoll fi) 0.001); [|exact H1].
    now apply SessionInv_trigger.
  - destruct (negb (isAutoPilot s)); [|exact Hinv].
    now apply (SessionInv_ext s).
Qed.

Lemma idle_update (dt : Q) (now : Z) (roll : Q)
    (d : ShootingStars.SpawnDraws) (p : ShootingStars.t) :
  ShootingStars.activeShootingStars p = [] ->
  ShootingStars.activeShootingStars
    (fst (ShootingStars.update dt now roll d p)) = [].
Proof.
  intros Hidle.
  assert (Hu : ShootingStars.updateShootingStars dt p = p).
  { unfold ShootingStars.updateShootingStars. now rewrite Hidle. }
  unfold ShootingStars.update. rewrite Hu.
  destruct (3000 <? now - ShootingStars.lastCheck p)%Z; [|exact Hidle].
  destruct (Qlt_le_dec roll 0.4); [|exact Hidle].
  rewrite ShootingStarsFacts.createNewShootingStar_throws; [exact Hidle|].
  simpl. rewrite Hidle. simpl. unfold ShootingStars.activeMax. lia.
Qed.

Lemma SessionInv_animate (fi : FrameInput) (s : State) :
  SessionInv s -> SessionInv (fst (animate fi s)).
Proof.
  intros Hinv. pose proof Hinv as (_ & _ & _ & _ & _ & _ & I7).
  pose proof (idle_update (delta fi) (starsNow fi) (spawnRoll fi)
                (spawnDraws fi) (shootingStars s) I7) as Hidle.
  unfold animate.
  destruct (ShootingStars.update _ _ _ _ _) as [stars c]. simpl in Hidle.
  assert (H1 : SessionInv (set_shootingStars stars s)).
  { destruct Hinv as (I1 & I2 & I3 & I4 & I5 & I6 & _).
    exact (conj I1 (conj I2 (conj I3 (conj I4 (conj I5 (conj I6 Hidle)))))). }
  destruct c as [|e]; cbn [fst]; [|exact H1].
  now apply SessionInv_cameraStep, SessionInv_updateDramaticEvent,
    SessionInv_updateObjects.
Qed.

Lemma SessionInv_set_mode (m : bool) (s : State) :
  SessionInv s -> SessionInv (set_mode m s).
Proof.
  intros (I1 & I2 & I3 & _ & I5 & I6 & I7).
  exact (conj I1 (conj I2 (conj I3 (conj eq_refl (conj I5 (conj I6 I7)))))).
Qed.

Lemma SessionInv_initial (scene : list SceneObject) (cam : Camera)
    (path : CameraPath.t) :
  forallb isStatic scene = true ->
  SessionInv (initialState scene cam path).
Proof.
  intros Hs. unfold SessionInv, shockwaves. simpl.
  split; [split; [discriminate|congruence]|].
  split; [discriminate|]. split; [now apply eventObjects_static|].
  split; [reflexivity|]. split; [reflexivity|]. split; [constructor|].
  reflexivity.
Qed.

Lemma session_invariant (s0 s : State) :
  SessionInv s0 -> sessionReachable s0 s -> SessionInv s.
Proof.
  intros H0. induction 1 as [|fi s _ IH|s _ IH|s _ IH|s _ IH].
  - exact H0.
  - now apply SessionInv_animate.
  - unfold toggleControlMode. destruct (negb (journeyStarted s));
      [exact IH|now apply SessionInv_set_mode].
  - now apply SessionInv_set_mode.
  - unfold startJourney. destruct (journeyStarted s); [exact IH|].
    now apply (SessionInv_ext s).
Qed.

End WithHost.

End SessionFacts.

Module SessionTheorems.
Import SessionFacts.

Section WithHost.
Context `{Host}.

(** X11.  In every state a session can reach from the initial state of
    [init], the flag [dramaticEventTriggered] is set exactly when
    [scene.userData.dramaticEvent] exists, and an existing event has
    duration 25: the second test of the guard
    [dramaticEventTriggered && scene.userData.dramaticEvent] never
    decides. *)
Theorem event_flag_matches_record (scene : list SceneObject) (cam : Camera)
    (path : CameraPath.t) (s : State) :
  forallb isStatic scene = true ->
  sessionReachable (initialState scene cam path) s ->
  (dramaticEventTriggered s = true <-> dramaticEvent s <> None)
  /\ (forall ev, dramaticEvent s = Some ev -> duration ev = 25).
Proof.
  intros Hs Hr.
  destruct (session_invariant _ s (SessionInv_initial scene cam path Hs) Hr)
    as (I1 & I2 & _).
  split; assumption.
Qed.

(** X12.  In every reachable state the scene holds a supernova mesh and a
    supernova light exactly while an event is in flight, and then exactly
    one of each, those of that event: two supernovae are never in the scene
    together and none is left behind by a completed event. *)
Theorem at_most_one_supernova (scene : list SceneObject) (cam : Camera)
    (path : CameraPath.t) (s : State) :
  forallb isStatic scene = true ->
  sessionReachable (initialState scene cam path) s ->
  eventObjects (sceneChildren s)
  = match dramaticEvent s with
    | Some ev => [SupernovaMesh (ev_serial ev); SupernovaLight (ev_serial ev)]
    | None => []
    end.
Proof.
  intros Hs Hr.
  destruct (session_invariant _ s (SessionInv_initial scene cam path Hs) Hr)
    as (_ & _ & I3 & _).
  exact I3.
Qed.

(** X13.  Shockwaves are never dropped from
    [scene.userData.updateableObjects]: in every reachable state the list
    holds one shockwave per trigger so far, in the order of creation, each
    with duration 25, whether or not it has completed. *)
Theorem shockwaves_accumulate (scene : list SceneObject) (cam : Camera)
    (path : CameraPath.t) (s : State) :
  forallb isStatic scene = true ->
  sessionReachable (initialState scene cam path) s ->
  map sw_serial (shockwaves s) = seq 0 (eventSerial s)
  /\ length (shockwaves s) = eventSerial s
  /\ Forall (fun w => sw_duration w = 25) (shockwaves s).
Proof.
  intros Hs Hr.
  destruct (session_invariant _ s (SessionInv_initial scene cam path Hs) Hr)
    as (_ & _ & _ & _ & I5 & I6 & _).
  split; [exact I5|]. split; [|exact I6].
  rewrite <- (length_map sw_serial), I5. apply length_seq.
Qed.

(** X14.  In every reachable state the orbit controls are enabled exactly
    in manual mode.  Once the journey has started, [toggleControlMode]
    flips the mode and a second call restores the state; before the journey
    has started it changes nothing. *)
Theorem controls_follow_mode (scene : list SceneObject) (cam : Camera)
    (path : CameraPath.t) (s : State) :
  forallb isStatic scene = true ->
  sessionReachable (initialState scene cam path) s ->
  controlsEnabled s = negb (isAutoPilot s)
  /\ (journeyStarted s = true ->
      isAutoPilot (toggleControlMode s) = negb (isAutoPilot s)
      /\ toggleControlMode (toggleControlMode s) = s)
  /\ (journeyStarted s = false -> toggleControlMode s = s).
Proof.
  intros Hs Hr.
  destruct (session_invariant _ s (SessionInv_initial scene cam path Hs) Hr)
    as (_ & _ & _ & I4 & _).
  split; [exact I4|]. split.
  - intros Hj. unfold toggleControlMode. rewrite Hj. cbn [negb].
    cbn [journeyStarted set_mode]. rewrite Hj. cbn [negb].
    split; [reflexivity|].
    destruct s; cbn in *. subst. now rewrite negb_involutive.
  - intros Hj. unfold toggleControlMode. now rewrite Hj.
Qed.


(** X16.  The guard of [triggerDramaticEvent] makes it idempotent: a call
    while an event is in flight changes nothing, so a second call, whatever
    the clock and the draws it is given, leaves the state of the first. *)
Theorem triggerDramaticEvent_idempotent (fi fi' : FrameInput) (s : State) :
  (dramaticEventTriggered s = true -> triggerDramaticEvent fi s = s)
  /\ triggerDramaticEvent fi' (triggerDramaticEvent fi s)
     = triggerDramaticEvent fi s.
Proof.
  assert (G : forall f t, dramaticEventTriggered t = true ->
                          triggerDramaticEvent f t = t).
  { intros f t Ht. unfold triggerDramaticEvent. now rewrite Ht. }
  split; [apply G|].
  destruct (dramaticEventTriggered s) eqn:Ef.
  - rewrite (G fi s Ef). exact (G fi' s Ef).
  - apply G. exact (proj1 (AnimateFacts.triggerDramaticEvent_fires fi s Ef)).
Qed.

End WithHost.

(** A state reached in the example session: the journey started and the
    frame at 61 s run. *)
Lemma reachable_after_frame61 :
  sessionReachable (H := chordHost) (initialState [] (camera session0)
                                       (cameraPath session0))
    (fst (animate (H := chordHost) frame61 (startJourney session0))).
Proof.
  apply session_frame.
  apply (session_journey (H := chordHost) _ session0).
  apply session_start.
Qed.

Lemma event_flag_matches_record_witness :
  let s := fst (animate (H := chordHost) frame61 (startJourney session0)) in
  forallb isStatic [] = true
  /\ sessionReachable (H := chordHost)
       (initialState [] (camera session0) (cameraPath session0)) s
  /\ (dramaticEventTriggered s = true <-> dramaticEvent s <> None).
Proof.
  intros s.
  assert (Hs : forallb isStatic [] = true) by reflexivity.
  split; [exact Hs|]. split; [exact reachable_after_frame61|].
  exact (proj1 (event_flag_matches_record (H := chordHost) [] _ _ s Hs
                  reachable_after_frame61)).
Defined.

Lemma at_most_one_supernova_witness :
  let s := fst (animate (H := chordHost) frame61 (startJourney session0)) in
  forallb isStatic [] = true
  /\ sessionReachable (H := chordHost)
       (initialState [] (camera session0) (cameraPath session0)) s
  /\ eventObjects (sceneChildren s)
     = match dramaticEvent s with
       | Some ev => [SupernovaMesh (ev_serial ev);
                     SupernovaLight (ev_serial ev)]
       | None => []
       end.
Proof.
  intros s.
  assert (Hs : forallb isStatic [] = true) by reflexivity.
  split; [exact Hs|]. split; [exact reachable_after_frame61|].
  exact (at_most_one_supernova (H := chordHost) [] _ _ s Hs
           reachable_after_frame61).
Defined.

Lemma shockwaves_accumulate_witness :
  let s := fst (animate (H := chordHost) frame61 (startJourney session0)) in
  forallb isStatic [] = true
  /\ sessionReachable (H := chordHost)
       (initialState [] (camera session0) (cameraPath session0)) s
  /\ length (shockwaves s) = eventSerial s.
Proof.
  intros s.
  assert (Hs : forallb isStatic [] = true) by reflexivity.
  split; [exact Hs|]. split; [exact reachable_after_frame61|].
  exact (proj1 (proj2 (shockwaves_accumulate (H := chordHost) [] _ _ s Hs
                         reachable_after_frame61))).
Defined.

Lemma controls_follow_mode_witness :
  let s := fst (animate (H := chordHost) frame61 (startJourney session0)) in
  forallb isStatic [] = true
  /\ sessionReachable (H := chordHost)
       (initialState [] (camera session0) (cameraPath session0)) s
  /\ controlsEnabled s = negb (isAutoPilot s).
Proof.
  intros s.
  assert (Hs : forallb isStatic [] = true) by reflexivity.
  split; [exact Hs|]. split; [exact reachable_after_frame61|].
  exact (proj1 (controls_follow_mode (H := chordHost) [] _ _ s Hs
                  reachable_after_frame61)).
Defined.


End SessionTheorems.

(** ** Shockwaves and location captions *)

Module ShockwaveFacts.

Lemma SceneObject_eqb_eq (a b : SceneObject) :
  SceneObject_eqb a b = true <-> a = b.
Proof.
  destruct a, b; simpl; try (split; [discriminate|intros E; discriminate E]);
    rewrite Nat.eqb_eq; split; congruence.
Qed.

Lemma scene_remove_In (o x : SceneObject) (scene : list SceneObject) :
  In x (scene_remove o scene) <-> In x scene /\ x <> o.
Proof.
  unfold scene_remove. rewrite List.filter_In, negb_true_iff.
  split; intros [Hin Hne]; (split; [exact Hin|]).
  - intros ->. now rewrite AnimateFacts.SceneObject_eqb_refl in Hne.
  - destruct (SceneObject_eqb o x) eqn:E; [|reflexivity].
    apply SceneObject_eqb_eq in E. congruence.
Qed.

Lemma length_flat_map3 {A : Type} (f : A -> list Q) (l : list A) :
  (forall a, length (f a) = 3%nat) ->
  length (flat_map f l) = (3 * length l)%nat.
Proof.
  intros Hf. induction l as [|a l IH]; [reflexivity|].
  cbn [flat_map]. rewrite length_app, Hf, IH. cbn [length]. lia.
Qed.

(** X17.  A shockwave of positive duration: while its runtime
    [elapsed - startTime] is below the duration, an update adds to every
    position entry its velocity entry times the factor
    [1 - runtime / duration * 0.5], which lies in (0.5, 1] once the runtime
    is not negative; from the duration on, an update leaves the positions
    alone and takes the branch that removes the particles from the scene.
    The shader time is the runtime in both cases and the velocities never
    change. *)
Theorem shockwave_update_phases (elapsed : Q) (w : Shockwave) :
  0 < sw_duration w ->
  let runtime := elapsed - sw_startTime w in
  let w' := shockwave_update elapsed w in
  sw_time w' = runtime
  /\ sw_velocity w' = sw_velocity w
  /\ (runtime < sw_duration w ->
      shockwave_done elapsed w = false
      /\ exists f : Q,
           f == 1 - runtime / sw_duration w * 0.5
           /\ (0 <= runtime -> 0.5 < f /\ f <= 1)
           /\ sw_positions w'
              = zip_with (fun p v => p + v * f)
                         (sw_positions w) (sw_velocity w))
  /\ (sw_duration w <= runtime ->
      shockwave_done elapsed w = true
      /\ sw_positions w' = sw_positions w).
Proof.
  intros Hd runtime w'. unfold w', shockwave_update, shockwave_done.
  fold runtime.
  split; [now destruct (Qlt_le_dec _ 1)|].
  split; [now destruct (Qlt_le_dec _ 1)|].
  split.
  - intros Hrun.
    assert (Hq : runtime / sw_duration w < 1).
    { apply Qlt_shift_div_r; [exact Hd|lra]. }
    assert (Hm : Qmin (runtime / sw_duration w) 1 == runtime / sw_duration w).
    { apply Q.min_l. lra. }
    destruct (Qlt_le_dec (Qmin (runtime / sw_duration w) 1) 1) as [_|Hc];
      [|lra].
    split; [reflexivity|].
    exists (1 - Qmin (runtime / sw_duration w) 1 * 0.5).
    split; [now rewrite Hm|]. split; [|reflexivity].
    intros H0. rewrite Hm.
    assert (0 <= runtime / sw_duration w).
    { apply Qle_shift_div_l; [exact Hd|lra]. }
    split; lra.
  - intros Hend.
    assert (Hq : 1 <= runtime / sw_duration w).
    { apply Qle_shift_div_l; [exact Hd|lra]. }
    assert (Hm : Qmin (runtime / sw_duration w) 1 == 1).
    { apply Q.min_r. exact Hq. }
    destruct (Qlt_le_dec (Qmin (runtime / sw_duration w) 1) 1) as [Hc|_];
      [lra|].
    split; reflexivity.
Qed.

Lemma shockwave_update_phases_witness :
  let w := mkShockwave 0 [0; 0; 0] [1; 0; 0] [2] [2; 4; 6] 61 25 0 in
  0 < sw_duration w
  /\ sw_time (shockwave_update 66 w) = 66 - sw_startTime w.
Proof.
  intros w.
  assert (Hd : 0 < sw_duration w) by reflexivity.
  split; [exact Hd|].
  exact (proj1 (shockwave_update_phases 66 w Hd)).
Defined.

Lemma updateObjects_shockwaves (elapsed : Q) (s : State) :
  shockwaves (updateObjects elapsed s)
  = map (shockwave_update elapsed) (shockwaves s)
  /\ sceneChildren (updateObjects elapsed s)
     = fold_right
         (fun w scene =>
            if shockwave_done elapsed w
            then scene_remove (ShockwaveParticles (sw_serial w)) scene
            else scene)
         (sceneChildren s) (shockwaves s).
Proof.
  unfold updateObjects, shockwaves.
  destruct (updateableObjects s) eqn:E; [split; reflexivity|].
  rewrite E. split; reflexivity.
Qed.

Lemma fold_remove_In (elapsed : Q) (objs : list Shockwave)
    (scene : list SceneObject) (o : SceneObject) :
  In o (fold_right
          (fun w scene =>
             if shockwave_done elapsed w
             then scene_remove (ShockwaveParticles (sw_serial w)) scene
             else scene)
          scene objs)
  <-> In o scene
      /\ forall w, In w objs -> shockwave_done elapsed w = true ->
                   o <> ShockwaveParticles (sw_serial w).
Proof.
  induction objs as [|w objs IH]; simpl.
  - split; [intros Ho; split; [exact Ho|intros w []]|intros [Ho _]; exact Ho].
  - destruct (shockwave_done elapsed w) eqn:Ed.
    + rewrite scene_remove_In, IH. split.
      * intros [[Ho Hrest] Hne]. split; [exact Ho|].
        intros w' [<-|Hw'] Hd; [exact Hne|now apply Hrest].
      * intros [Ho Hall]. split; [split; [exact Ho|]|].
        -- intros w' Hw' Hd. apply Hall; [now right|exact Hd].
        -- apply Hall; [now left|exact Ed].
    + rewrite IH. split.
      * intros [Ho Hrest]. split; [exact Ho|].
        intros w' [<-|Hw'] Hd; [congruence|now apply Hrest].
      * intros [Ho Hall]. split; [exact Ho|].
        intros w' Hw' Hd. apply Hall; [now right|exact Hd].
Qed.

(** X18.  The loop over [updateableObjects] updates every shockwave of the
    list and keeps them all.  It adds nothing to the scene; it removes the
    particles of exactly the shockwaves that have completed, every frame
    again; every other object of the scene stays. *)
Theorem updateObjects_scene (elapsed : Q) (s : State) :
  let s' := updateObjects elapsed s in
  shockwaves s' = map (shockwave_update elapsed) (shockwaves s)
  /\ length (shockwaves s') = length (shockwaves s)
  /\ forall o : SceneObject,
       In o (sceneChildren s')
       <-> In o (sceneChildren s)
           /\ forall w, In w (shockwaves s) ->
                        shockwave_done elapsed w = true ->
                        o <> ShockwaveParticles (sw_serial w).
Proof.
  intros s'. destruct (updateObjects_shockwaves elapsed s) as [Ho Hs].
  fold s' in Ho, Hs.
  split; [exact Ho|]. split; [now rewrite Ho, length_map|].
  intros o. rewrite Hs. apply fold_remove_In.
Qed.

Section WithHost.
Context `{Host}.

(** X19.  [createShockwave] appends one shockwave to the updateable
    objects and its particles to the scene.  The position, velocity and
    colour arrays have three entries per particle and the size array one,
    so the update loop covers them exactly; the shockwave starts at the
    given clock reading with shader time 0; with every draw of
    [Math.random()] in [0, 1] the sizes lie in [2, 7]. *)
Theorem createShockwave_arrays (center : Vector3) (dur now : Q)
    (draws : nat -> ParticleDraw) (serial : nat) (s : State) :
  let s' := createShockwave center dur now draws serial s in
  exists w : Shockwave,
    shockwaves s' = shockwaves s ++ [w]
    /\ sceneChildren s' = sceneChildren s ++ [ShockwaveParticles serial]
    /\ sw_serial w = serial /\ sw_startTime w = now
    /\ sw_duration w = dur /\ sw_time w = 0
    /\ length (sw_positions w) = (3 * particleCount)%nat
    /\ length (sw_velocity w) = (3 * particleCount)%nat
    /\ length (sw_colors w) = (3 * particleCount)%nat
    /\ length (sw_sizes w) = particleCount
    /\ ((forall i, 0 <= u_size (draws i) /\ u_size (draws i) <= 1) ->
        Forall (fun x => 2 <= x /\ x <= 7) (sw_sizes w)).
Proof.
  intros s'. unfold s', createShockwave, shockwaves.
  cbn [set_objects updateableObjects sceneChildren].
  eexists. split; [reflexivity|]. split; [reflexivity|].
  cbn [sw_serial sw_startTime sw_duration sw_time sw_positions sw_velocity
       sw_colors sw_sizes].
  split; [reflexivity|]. split; [reflexivity|]. split; [reflexivity|].
  split; [reflexivity|].
  split; [rewrite length_flat_map3, length_seq; reflexivity|].
  split; [rewrite length_flat_map3, length_seq; reflexivity|].
  split; [rewrite length_flat_map3, length_seq; reflexivity|].
  split; [now rewrite length_map, length_seq|].
  intros Hdraws. apply List.Forall_forall. intros x Hx.
  apply in_map_iff in Hx as (i & <- & _).
  destruct (Hdraws i) as [H0 H1]. split; lra.
Qed.

End WithHost.

End ShockwaveFacts.

Module LocationFacts.

Section WithHost.
Context `{Host}.

Lemma findLocation_Some (pos : Vector3) (current : Z) (locs : list Location) :
  forall (i k : Z),
    findLocation pos current i locs = Some k ->
    exists (j : nat) (location : Location),
      k = (i + Z.of_nat j)%Z
      /\ locs !! j = Some location
      /\ withinTrigger pos location
      /\ k <> current
      /\ forall (j' : nat) (other : Location),
           (j' < j)%nat -> locs !! j' = Some other ->
           withinTrigger pos other -> (i + Z.of_nat j')%Z = current.
Proof.
  induction locs as [|location rest IH]; intros i k Hk; [discriminate|].
  cbn [findLocation] in Hk.
  destruct (Qlt_le_dec _ _) as [Hin|Hout].
  - destruct (Z.eqb_spec i current) as [Heq|Hne].
    + destruct (IH _ _ Hk) as (j & loc & -> & Hl & Hw & Hc & Hfirst).
      exists (S j), loc. split; [lia|]. split; [exact Hl|].
      split; [exact Hw|]. split; [exact Hc|].
      intros [|j'] other Hlt Hl' Hw'; [lia|].
      simpl in Hl'. rewrite <- (Hfirst j' other) by (assumption || lia). lia.
    + injection Hk as <-. exists 0%nat, location.
      split; [lia|]. split; [reflexivity|]. split; [exact Hin|].
      split; [exact Hne|]. intros j' other Hlt. lia.
  - destruct (IH _ _ Hk) as (j & loc & -> & Hl & Hw & Hc & Hfirst).
    exists (S j), loc. split; [lia|]. split; [exact Hl|].
    split; [exact Hw|]. split; [exact Hc|].
    intros [|j'] other Hlt Hl' Hw'.
    + simpl in Hl'. injection Hl' as <-. unfold withinTrigger in Hw'. lra.
    + simpl in Hl'. rewrite <- (Hfirst j' other) by (assumption || lia). lia.
Qed.

Lemma findLocation_None (pos : Vector3) (current : Z) (locs : list Location) :
  forall (i : Z),
    findLocation pos current i locs = None ->
    forall (j : nat) (location : Location),
      locs !! j = Some location -> withinTrigger pos location ->
      (i + Z.of_nat j)%Z = current.
Proof.
  induction locs as [|location rest IH]; intros i Hnone j loc Hl Hw;
    [discriminate|].
  cbn [findLocation] in Hnone.
  destruct (Qlt_le_dec _ _) as [Hin|Hout].
  - destruct (Z.eqb_spec i current) as [Heq|Hne]; [|discriminate].
    destruct j as [|j]; [lia|]. simpl in Hl.
    rewrite <- (IH _ Hnone j loc Hl Hw). lia.
  - destruct j as [|j].
    + simpl in Hl. injection Hl as <-. unfold withinTrigger in Hw. lra.
    + simpl in Hl. rewrite <- (IH _ Hnone j loc Hl Hw). lia.
Qed.

(** X20.  [checkLocationInfo] changes only the current location index and
    the time of the last change, and changes them together or not at all.
    It changes them only if the journey has started and at least 10000 ms
    have passed since the last change; the new index is then the first
    location of the list, other than the current one, that has the camera
    within its trigger distance, and the time is the current time.  When no
    such location exists it changes nothing. *)
Theorem checkLocationInfo_sound (fi : FrameInput) (s : State) :
  let s' := checkLocationInfo fi s in
  let pos := cam_position (camera s) in
  (s' = s
   /\ (journeyStarted s = true ->
       (10000 <= locationNow fi - lastLocationChangeTime s)%Z ->
       forall (j : nat) (location : Location),
         cosmicLocations !! j = Some location ->
         withinTrigger pos location ->
         Z.of_nat j = currentLocationIndex s))
  \/ (journeyStarted s = true
      /\ (10000 <= locationNow fi - lastLocationChangeTime s)%Z
      /\ exists (j : nat) (location : Location),
           s' = set_location (Z.of_nat j) (locationNow fi) s
           /\ cosmicLocations !! j = Some location
           /\ withinTrigger pos location
           /\ Z.of_nat j <> currentLocationIndex s
           /\ forall (j' : nat) (other : Location),
                (j' < j)%nat -> cosmicLocations !! j' = Some other ->
                withinTrigger pos other ->
                Z.of_nat j' = currentLocationIndex s).
Proof.
  intros s' pos. unfold s', checkLocationInfo.
  destruct (journeyStarted s) eqn:Ej; cbn [negb];
    [|left; split; [reflexivity|discriminate]].
  destruct (Z.ltb_spec (locationNow fi - lastLocationChangeTime s) 10000)
    as [Hsoon|Hdue]; [left; split; [reflexivity|intros _ Hc; lia]|].
  fold pos.
  destruct (findLocation pos (currentLocationIndex s) 0 cosmicLocations)
    as [k|] eqn:Ef.
  - right. split; [reflexivity|]. split; [exact Hdue|].
    destruct (findLocation_Some _ _ _ _ _ Ef)
      as (j & loc & -> & Hl & Hw & Hc & Hfirst).
    exists j, loc. rewrite Z.add_0_l in *.
    split; [reflexivity|]. split; [exact Hl|]. split; [exact Hw|].
    split; [exact Hc|]. intros j' other Hlt Hl' Hw'.
    now rewrite <- (Hfirst j' other Hlt Hl' Hw').
  - left. split; [reflexivity|]. intros _ _ j loc Hl Hw.
    now rewrite <- (findLocation_None _ _ _ _ Ef j loc Hl Hw).
Qed.

End WithHost.

End LocationFacts.

(** ** More on the frame *)

Module FrameFacts.

Section WithHost.
Context `{Host}.

(** X21.  Bounds of a supernova in flight.  If the event block finds the
    scale within [0, 31], the clock not before the start of the event and
    [Math.sin] within [-1, 1], then it leaves, for an event still in
    flight, a scale within [0, 31] and a light intensity within [0, 4.5];
    during growth the scale stays below 31 and the intensity below 3. *)
Theorem supernova_bounds (elapsed : Q) (s : State) (ev : DramaticEvent) :
  dramaticEventTriggered s = true ->
  dramaticEvent s = Some ev ->
  duration ev = 25 ->
  startTime ev <= elapsed ->
  (0 <= supernova_scale ev /\ supernova_scale ev <= 31) ->
  (forall x : Q, -1 <= Math_sin x /\ Math_sin x <= 1) ->
  forall ev', dramaticEvent (updateDramaticEvent elapsed s) = Some ev' ->
    (0 <= supernova_scale ev' /\ supernova_scale ev' <= 31)
    /\ (0 <= supernovaLight_intensity ev'
        /\ supernovaLight_intensity ev' <= 4.5)
    /\ ((elapsed - startTime ev) / 25 < 0.3 ->
        1 <= supernova_scale ev' /\ supernova_scale ev' < 31
        /\ supernovaLight_intensity ev' < 3).
Proof.
  intros Hflag Hev Hdur Hstart [Hs0 Hs1] Hsin ev'.
  unfold updateDramaticEvent. rewrite Hflag, Hev, Hdur.
  set (p := (elapsed - startTime ev) / 25).
  assert (Ep : p == (elapsed - startTime ev) * (1 # 25)) by (unfold p; field).
  assert (Hp0 : 0 <= p) by (rewrite Ep; lra).
  destruct (Qlt_le_dec (Qmin p 1) 1) as [Hrun|Hend];
    cbn [dramaticEvent set_event]; [|discriminate].
  assert (Hm : Qmin p 1 == p).
  { destruct (Q.min_spec p 1) as [[_ E]|[Hc E]]; [exact E|].
    rewrite E in Hrun. lra. }
  intros [= <-].
  destruct (Qlt_le_dec (Qmin p 1) 0.3) as [H3|H3];
    [|destruct (Qlt_le_dec (Qmin p 1) 0.7) as [H7|H7]];
    cbn [supernova_scale supernovaLight_intensity].
  - rewrite Hm in *. repeat split; try lra.
  - destruct (Hsin (elapsed * 3)) as [Hlo Hhi]. rewrite Hm in H3.
    split; [split; assumption|]. split; [split; lra|]. intros Hc. lra.
  - rewrite Hm in *.
    assert (Ef : (p - 0.7) / 0.3 == (p - 0.7) * (10 # 3)) by field.
    rewrite Ef. split; [split; lra|]. split; [split; lra|]. intros Hc. lra.
Qed.

Lemma cameraStep_keeps_mode (fi : FrameInput) (s : State) :
  isAutoPilot (cameraStep fi s) = isAutoPilot s
  /\ journeyStarted (cameraStep fi s) = journeyStarted s
  /\ controlsEnabled (cameraStep fi s) = controlsEnabled s
  /\ cameraPath (cameraStep fi s) = cameraPath s.
Proof.
  unfold cameraStep.
  destruct (journeyStarted s && isAutoPilot s);
    [|destruct (negb (isAutoPilot s)); repeat split].
  unfold autoPilotStep. set (s1 := set_camera _ s).
  assert (K : isAutoPilot (checkLocationInfo fi s1) = isAutoPilot s
              /\ journeyStarted (checkLocationInfo fi s1) = journeyStarted s
              /\ controlsEnabled (checkLocationInfo fi s1) = controlsEnabled s
              /\ cameraPath (checkLocationInfo fi s1) = cameraPath s).
  { unfold checkLocationInfo.
    destruct (negb (journeyStarted s1)); [repeat split|].
    destruct (locationNow fi - lastLocationChangeTime s1 <? 10000)%Z;
      [repeat split|].
    destruct (findLocation _ _ _ _); repeat split. }
  destruct (negb (dramaticEventTriggered _)); [|exact K].
  destruct (Qlt_le_dec 60 (elapsedTime fi)); [|exact K].
  destruct (Qlt_le_dec (triggerRoll fi) 0.001); [|exact K].
  unfold triggerDramaticEvent.
  destruct (dramaticEventTriggered _); exact K.
Qed.

Lemma beforeCamera_keeps_mode (fi : FrameInput) (s : State) :
  isAutoPilot (beforeCamera fi s) = isAutoPilot s
  /\ journeyStarted (beforeCamera fi s) = journeyStarted s
  /\ controlsEnabled (beforeCamera fi s) = controlsEnabled s
  /\ cameraPath (beforeCamera fi s) = cameraPath s
  /\ camera (beforeCamera fi s) = camera s
  /\ currentLocationIndex (beforeCamera fi s) = currentLocationIndex s
  /\ lastLocationChangeTime (beforeCamera fi s) = lastLocationChangeTime s.
Proof.
  unfold beforeCamera, updateObjects.
  destruct (updateableObjects s) as [objs|]; unfold updateDramaticEvent;
    cbn [dramaticEventTriggered dramaticEvent set_objects];
    destruct (dramaticEventTriggered s), (dramaticEvent s);
    try (repeat split; fail);
    destruct (Qlt_le_dec _ 1); repeat split.
Qed.

(** X22.  Frames never switch the mode: whatever a frame reads and
    however it ends, it leaves the autopilot flag, the journey flag, the
    enabling of the controls and the camera path as they were.  In manual
    mode it moves the camera by the orbit controls alone, or not at all if
    it ends in an exception, and leaves the location caption alone. *)
Theorem animate_keeps_mode (fi : FrameInput) (s : State) :
  let s' := fst (animate fi s) in
  isAutoPilot s' = isAutoPilot s
  /\ journeyStarted s' = journeyStarted s
  /\ controlsEnabled s' = controlsEnabled s
  /\ cameraPath s' = cameraPath s
  /\ (isAutoPilot s = false ->
      (camera s' = controls_update (camera s) \/ camera s' = camera s)
      /\ currentLocationIndex s' = currentLocationIndex s
      /\ lastLocationChangeTime s' = lastLocationChangeTime s).
Proof.
  intros s'. unfold s', animate.
  destruct (ShootingStars.update _ _ _ _ _) as [stars [|e]]; cbn [fst].
  - set (s1 := set_shootingStars stars s).
    destruct (beforeCamera_keeps_mode fi s1)
      as (Ba & Bj & Bc & Bp & Bcam & Bi & Bt).
    destruct (cameraStep_keeps_mode fi (beforeCamera fi s1))
      as (Ca & Cj & Cc & Cp).
    split; [now rewrite Ca, Ba|]. split; [now rewrite Cj, Bj|].
    split; [now rewrite Cc, Bc|]. split; [now rewrite Cp, Bp|].
    intros Hman. unfold cameraStep. rewrite Ba. cbn [isAutoPilot s1].
    change (isAutoPilot s1) with (isAutoPilot s). rewrite Hman, andb_false_r.
    cbn [negb camera set_camera currentLocationIndex lastLocationChangeTime].
    rewrite Bcam, Bi, Bt. split; [left; reflexivity|split; reflexivity].
  - split; [reflexivity|]. split; [reflexivity|]. split; [reflexivity|].
    split; [reflexivity|].
    intros _. split; [right; reflexivity|split; reflexivity].
Qed.

End WithHost.

Lemma supernova_bounds_witness :
  let ev := mkEvent 0 1 0 1 61 25 in
  let s :=
    set_event true 0 (Some ev) [SupernovaMesh 0; SupernovaLight 0] 1
              (startJourney session0) in
  dramaticEventTriggered s = true
  /\ dramaticEvent s = Some ev
  /\ duration ev = 25
  /\ startTime ev <= 66
  /\ (0 <= supernova_scale ev /\ supernova_scale ev <= 31)
  /\ (forall x : Q, -1 <= Math_sin (Host := chordHost) x
                    /\ Math_sin (Host := chordHost) x <= 1)
  /\ forall ev',
       dramaticEvent (updateDramaticEvent (H := chordHost) 66 s) = Some ev' ->
       0 <= supernova_scale ev' /\ supernova_scale ev' <= 31.
Proof.
  intros ev s.
  assert (Hflag : dramaticEventTriggered s = true) by reflexivity.
  assert (Hev : dramaticEvent s = Some ev) by reflexivity.
  assert (Hdur : duration ev = 25) by reflexivity.
  assert (Hstart : startTime ev <= 66) by discriminate.
  assert (Hsc : 0 <= supernova_scale ev /\ supernova_scale ev <= 31)
    by (split; discriminate).
  assert (Hsin : forall x : Q, -1 <= Math_sin (Host := chordHost) x
                               /\ Math_sin (Host := chordHost) x <= 1).
  { intros x. simpl. split; discriminate. }
  split; [exact Hflag|]. split; [exact Hev|]. split; [exact Hdur|].
  split; [exact Hstart|]. split; [exact Hsc|]. split; [exact Hsin|].
  intros ev' Hev'.
  exact (proj1 (supernova_bounds (H := chordHost) 66 s ev Hflag Hev Hdur
                  Hstart Hsc Hsin ev' Hev')).
Defined.

End FrameFacts.

(** ** Planets *)

Module PlanetFacts.
Import Planet.

Lemma iter_onBeforeRender (n : nat) (g : PlanetGroup) :
  planet_rotation_y (Nat.iter n onBeforeRender g)
    == planet_rotation_y g + inject_Z (Z.of_nat n) * planet_rotationSpeed g
  /\ planet_rotationSpeed (Nat.iter n onBeforeRender g)
     = planet_rotationSpeed g
  /\ planet_rotation_x (Nat.iter n onBeforeRender g) = planet_rotation_x g
  /\ children (Nat.iter n onBeforeRender g)
     = map (Nat.iter n renderChild) (children g).
Proof.
  induction n as [|n (IHy & IHs & IHx & IHc)].
  - simpl. split; [ring|]. repeat split. now rewrite map_id.
  - change (Nat.iter (S n) onBeforeRender g)
      with (onBeforeRender (Nat.iter n onBeforeRender g)).
    set (gn := Nat.iter n onBeforeRender g) in *.
    unfold onBeforeRender.
    cbn [planet_rotation_y planet_rotationSpeed planet_rotation_x children].
    split; [|split; [exact IHs|split; [exact IHx|]]].
    + rewrite IHy, IHs, Nat2Z.inj_succ. unfold Z.succ.
      rewrite inject_Z_plus. ring.
    + rewrite IHc, map_map. reflexivity.
Qed.

Lemma iter_renderChild_moon (n : nat) (m : MoonOrbit) :
  orbit_rotation_y m = ud_angle m ->
  exists m',
    Nat.iter n renderChild (Moon m) = Moon m'
    /\ orbit_rotation_y m' = ud_angle m'
    /\ ud_rotationSpeed m' = ud_rotationSpeed m
    /\ moonRadius m' = moonRadius m /\ moonDistance m' = moonDistance m
    /\ orbit_rotation_x m' = orbit_rotation_x m
    /\ ud_angle m'
       == ud_angle m + inject_Z (Z.of_nat n) * ud_rotationSpeed m.
Proof.
  intros Hinit. induction n as [|n (m' & E & Hy & Hs & Hr & Hd & Hx & Ha)].
  - exists m. split; [reflexivity|]. split; [exact Hinit|].
    split; [reflexivity|]. split; [reflexivity|]. split; [reflexivity|].
    split; [reflexivity|]. simpl. ring.
  - change (Nat.iter (S n) renderChild (Moon m))
      with (renderChild (Nat.iter n renderChild (Moon m))).
    rewrite E. unfold renderChild. rewrite Hs.
    destruct (Qeq_bool (ud_rotationSpeed m) 0) eqn:Ez.
    + exists m'. split; [reflexivity|]. split; [exact Hy|].
      split; [exact Hs|]. split; [exact Hr|]. split; [exact Hd|].
      split; [exact Hx|]. apply Qeq_bool_eq in Ez.
      rewrite Ha, Ez. ring.
    + eexists. split; [reflexivity|].
      cbn [orbit_rotation_y ud_angle ud_rotationSpeed moonRadius
           moonDistance orbit_rotation_x].
      split; [reflexivity|]. split; [reflexivity|]. split; [exact Hr|].
      split; [exact Hd|]. split; [exact Hx|].
      rewrite Ha, Nat2Z.inj_succ. unfold Z.succ.
      rewrite inject_Z_plus. ring.
Qed.

Lemma iter_renderChild_other (n : nat) (c : Child) :
  (forall m, c <> Moon m) -> Nat.iter n renderChild c = c.
Proof.
  intros Hc. induction n as [|n IH]; [reflexivity|].
  change (Nat.iter (S n) renderChild c)
    with (renderChild (Nat.iter n renderChild c)).
  rewrite IH. destruct c; try reflexivity. now destruct (Hc orbit).
Qed.

Section WithHost.
Context `{Host}.

(** X23.  A planet after [n] calls of its [onBeforeRender]: the mesh has
    turned by [n] times its rotation speed; every moon has turned about the
    planet by [n] times its own speed, which is the configured speed or,
    when that is missing or 0, twice the planet's, and the rotation of its
    orbit group equals the angle kept in its [userData]; its radius and
    distance are the configured ones or, when missing or 0, 0.27 and 3
    times the planet's radius; rings and atmosphere are never touched. *)
Theorem planet_after_renders (n : nat) (radius rotationSpeed tilt : Q)
    (hasRings hasAtmosphere : bool)
    (moons : list (MoonConfig * MoonDraws)) :
  let g :=
    createPlanet radius rotationSpeed tilt hasRings hasAtmosphere moons in
  let g' := Nat.iter n onBeforeRender g in
  planet_rotation_y g' == inject_Z (Z.of_nat n) * rotationSpeed
  /\ planet_rotation_x g' = tilt
  /\ length (children g') = length (children g)
  /\ (forall (i : nat) (c : Child),
        children g !! i = Some c -> (forall m, c <> Moon m) ->
        children g' !! i = Some c)
  /\ (forall (i : nat) (moon : MoonConfig) (d : MoonDraws),
        moons !! i = Some (moon, d) ->
        exists (j : nat) (m' : MoonOrbit),
          children g' !! j = Some (Moon m')
          /\ moonRadius m' = orElse (cfg_radius moon) (radius * 0.27)
          /\ moonDistance m' = orElse (cfg_distance moon) (radius * 3)
          /\ ud_rotationSpeed m'
             = orElse (cfg_rotationSpeed moon) (rotationSpeed * 2)
          /\ orbit_rotation_y m' = ud_angle m'
          /\ ud_angle m'
             == m_angle d * Math_PI * 2
                + inject_Z (Z.of_nat n) * ud_rotationSpeed m').
Proof.
  intros g g'.
  destruct (iter_onBeforeRender n g) as (Hy & _ & Hx & Hc). fold g' in Hy, Hx, Hc.
  split; [rewrite Hy; unfold g; simpl; ring|].
  split; [exact Hx|]. split; [now rewrite Hc, length_map|].
  split.
  - intros i c Hi Hother.
    rewrite Hc, list_lookup_fmap, Hi. simpl.
    now rewrite iter_renderChild_other.
  - intros i moon d Hi.
    set (pre := (if hasRings then [Rings (Math_PI / 2) tilt] else [])
                ++ (if hasAtmosphere then [Atmosphere] else [])).
    set (m0 := createMoon radius rotationSpeed moon d).
    assert (Hg : children g !! (length pre + i)%nat = Some (Moon m0)).
    { unfold g, createPlanet. cbn [children]. rewrite app_assoc. fold pre.
      rewrite lookup_app_r by lia.
      replace (length pre + i - length pre)%nat with i by lia.
      now rewrite list_lookup_fmap, Hi. }
    destruct (iter_renderChild_moon n m0 eq_refl)
      as (m' & E & Hry & Hs & Hr & Hd & _ & Ha).
    exists (length pre + i)%nat, m'.
    split; [rewrite Hc, list_lookup_fmap, Hg; simpl; now rewrite E|].
    split; [exact Hr|]. split; [exact Hd|]. split; [exact Hs|].
    split; [exact Hry|]. rewrite Ha, Hs. reflexivity.
Qed.

End WithHost.

End PlanetFacts.
